(** * zman: the ZOIA patch manager (zman/zman.py)

    A shallow embedding of the preference merger, the slot allocator of
    [copy_files], the reporter and the configuration round trip, with the
    properties the specification states about them.

    Python values are modelled as the code has them: a [PatchFile] dataclass
    is a record, [Optional[int]] is [option Z], the 64-cell [patch_order]
    list is a [list (option PatchFile)] indexed the way Python indexes lists
    (negative indices count from the end, anything else out of range raises
    [IndexError]), the [deque] is a list appended at its right end and popped
    at its left end, dictionaries are [gmap]s, and an uncaught exception is
    an explicit outcome.  [copy_files] is given twice: as the function that
    settles the slots and decides the copies, and, with [copy_files_on], as
    the call on a file system whose [copyfile] can raise. *)

From stdpp Require Import base gmap list strings pretty sorting.

Local Set Warnings "-register-all".
Local Open Scope Z_scope.

(** ** Data model *)

(** [@dataclass class PatchFile] (zman.py, lines 36-42). *)
Record PatchFile := mkPatchFile {
  full_path : string;
  file_name : string;
  name : string;
  active : bool;
  preferred_index : option Z
}.

#[global] Instance PatchFile_eq_dec : EqDecision PatchFile.
Proof. solve_decision. Defined.

(** The defaults of the dataclass: [active = True], [preferred_index = None]. *)
Definition new_PatchFile (fp fn n : string) : PatchFile :=
  mkPatchFile fp fn n true None.

(** Exceptions the modelled code can raise and leave uncaught; the last
    four are those of a file operation, [OSError] standing for any other
    failure the operating system reports. *)
Inductive exn :=
  | TypeError
  | IndexError
  | FileNotFoundError
  | IsADirectoryError
  | PermissionError
  | OSError.

(** What a call does: it returns a value, raises, or ends the process with
    [exit(status)]. *)
Inductive outcome (A : Type) :=
  | Returned (a : A)
  | Raised (e : exn)
  | Exited (status : Z).
Arguments Returned {A} a.
Arguments Raised {A} e.
Arguments Exited {A} status.

Definition obind {A B} (o : outcome A) (k : A → outcome B) : outcome B :=
  match o with
  | Returned a => k a
  | Raised e => Raised e
  | Exited s => Exited s
  end.

Notation "x ← o ;;; k" := (obind o (λ x, k))
  (at level 20, o at level 100, k at level 200, right associativity,
   format "x  ←  o ;;;  '/' k").

(** Lines written to standard output by [copy_files]. *)
Inductive line :=
  | HitPatchLimit (page_size : nat)
  | Created (slot : nat) (pf : PatchFile).

(** ** Python list indexing *)

(** [xs[i]] on a list of length [len]: [0 <= i < len] addresses cell [i],
    [-len <= i < 0] addresses cell [len + i], any other index raises
    [IndexError] (here [None]). *)
Definition py_index (len : nat) (i : Z) : option nat :=
  if bool_decide (0 ≤ i < Z.of_nat len) then Some (Z.to_nat i)
  else if bool_decide (- Z.of_nat len ≤ i < 0) then
    Some (Z.to_nat (Z.of_nat len + i))
  else None.

(** ** The slot allocator: [copy_files] (zman.py, lines 199-240) *)

Definition page_size : nat := 64.
Arguments page_size : simpl never.

(** The local variables of the first loop. *)
Record alloc := mkAlloc {
  patch_order : list (option PatchFile);
  unordered_patches : list PatchFile;
  count : nat;
  stdout : list line
}.

(** [patch_order = [None]*64; unordered_patches = deque(); count = 1]. *)
Definition alloc_init : alloc :=
  mkAlloc (replicate 64 None) [] 1 [].

Definition pin (c : nat) (pf : PatchFile) (st : alloc) : alloc :=
  mkAlloc (<[c := Some pf]> (patch_order st)) (unordered_patches st)
          (S (count st)) (stdout st).

Definition enqueue (pf : PatchFile) (st : alloc) : alloc :=
  mkAlloc (patch_order st) (unordered_patches st ++ [pf])
          (S (count st)) (stdout st).

Definition say (ln : line) (st : alloc) : alloc :=
  mkAlloc (patch_order st) (unordered_patches st) (count st)
          (stdout st ++ [ln]).

(** Lines 213-225, [for pf in patch_files: ...].  The [break] returns the
    state with the warning printed; skipping an inactive entry under
    [verbose] evaluates [pf['name']] on a dataclass instance, which raises
    [TypeError]; [patch_order[pf.preferred_index]] raises [IndexError] when
    the index is out of range. *)
Fixpoint place_loop (verbose : bool) (patch_files : list PatchFile)
    (st : alloc) : outcome alloc :=
  match patch_files with
  | [] => Returned st
  | pf :: rest =>
    if bool_decide (page_size < count st)%nat then
      Returned (say (HitPatchLimit page_size) st)
    else if negb (active pf) then
      if verbose then Raised TypeError
      else place_loop verbose rest st
    else
      match preferred_index pf with
      | Some p =>
        match py_index (length (patch_order st)) p with
        | None => Raised IndexError
        | Some c =>
          match patch_order st !! c with
          | Some None => place_loop verbose rest (pin c pf st)
          | _ => place_loop verbose rest (enqueue pf st)
          end
        end
      | None => place_loop verbose rest (enqueue pf st)
      end
  end.

(** Lines 227-231, [for i in range(page_size): ...] over the cells still to
    visit.  A [PatchFile] instance is always truthy, so [not patch_order[i]]
    holds exactly on the [None] cells. *)
Fixpoint fill_loop (cells : list nat) (order : list (option PatchFile))
    (queue : list PatchFile)
    : outcome (list (option PatchFile) * list PatchFile) :=
  match cells with
  | [] => Returned (order, queue)
  | i :: cells' =>
    match queue with
    | [] => Returned (order, queue)
    | pf :: queue' =>
      match order !! i with
      | None => Raised IndexError
      | Some None => fill_loop cells' (<[i := Some pf]> order) queue'
      | Some (Some _) => fill_loop cells' order queue
      end
    end
  end.

(** Lines 233-240: one [copyfile(pf.full_path, <dest_dir>/<i:03>_zoia_<name>)]
    per filled cell, recorded as the pair of the cell and its entry, and a
    [Created] line per copy under [verbose].  This is the loop as it decides
    what to copy, every [copyfile] taken to return; [copy_loop_on] below
    carries the copies out on a file system, where [copyfile] can raise. *)
Fixpoint copy_loop (verbose : bool) (cells : list nat)
    (order : list (option PatchFile))
    : outcome (list (nat * PatchFile) * list line) :=
  match cells with
  | [] => Returned ([], [])
  | i :: cells' =>
    match order !! i with
    | None => Raised IndexError
    | Some None => copy_loop verbose cells' order
    | Some (Some pf) =>
      r ← copy_loop verbose cells' order ;;;
      Returned ((i, pf) :: r.1,
                if verbose then Created i pf :: r.2 else r.2)
    end
  end.

(** What a completed [copy_files] leaves behind: the slot table, the queue
    after the fill, the lines printed and the copies made.  [dest_dir] only
    prefixes the destination paths and is left out. *)
Record run := mkRun {
  table : list (option PatchFile);
  leftover : list PatchFile;
  printed : list line;
  copied : list (nat * PatchFile)
}.

Definition copy_files (patch_files : list PatchFile) (verbose : bool)
    : outcome run :=
  st ← place_loop verbose patch_files alloc_init ;;;
  f ← fill_loop (seq 0 page_size) (patch_order st) (unordered_patches st) ;;;
  c ← copy_loop verbose (seq 0 page_size) f.1 ;;;
  Returned (mkRun f.1 f.2 (stdout st ++ c.2) c.1).

(** The entries held by the filled cells of a table, in cell order. *)
Definition filled (t : list (option PatchFile)) : list PatchFile :=
  omap id t.

(** The entries a call copies to the destination: none when it raises. *)
Definition placed (o : outcome run) : list PatchFile :=
  match o with
  | Returned r => (copied r).*2
  | _ => []
  end.

Definition is_active (pf : PatchFile) : Prop := active pf = true.

#[global] Instance is_active_dec pf : Decision (is_active pf).
Proof. unfold is_active. apply _. Defined.

(** The invariant of the data model: a preference, when present, is an
    index of the 64-cell table. *)
Definition slot_ok (pf : PatchFile) : Prop :=
  match preferred_index pf with
  | Some p => 0 ≤ p < 64
  | None => True
  end.

(** The cell an entry asks for, under Python's indexing of a 64-cell list. *)
Definition claims (pf : PatchFile) (c : nat) : Prop :=
  ∃ p, preferred_index pf = Some p ∧ py_index 64 p = Some c.

(** The preferences the first loop can index with without raising: those
    Python accepts as an index of a 64-cell list. *)
Definition index_ok (x : PatchFile) : Prop :=
  ∀ p, preferred_index x = Some p → is_Some (py_index 64 p).

(** Sample entries for the examples below. *)
Definition sample (n : string) (a : bool) (p : option Z) : PatchFile :=
  mkPatchFile ("./patches/" +:+ n) n n a p.

(** The number of empty cells of a table. *)
Fixpoint free (t : list (option PatchFile)) : nat :=
  match t with
  | [] => 0
  | None :: t' => S (free t')
  | Some _ :: t' => free t'
  end.

(** The fill phase the way the specification words it: walk the cells in
    ascending order and hand the next queued entry to each empty cell; the
    second component is what stays in the queue. *)
Fixpoint fifo_fill (cells : list (option PatchFile)) (queue : list PatchFile)
    : list (option PatchFile) * list PatchFile :=
  match cells with
  | [] => ([], queue)
  | Some x :: cells' =>
    let r := fifo_fill cells' queue in (Some x :: r.1, r.2)
  | None :: cells' =>
    match queue with
    | [] => (cells, [])
    | e :: queue' =>
      let r := fifo_fill cells' queue' in (Some e :: r.1, r.2)
    end
  end.

(** ** The preference merger: [merge_patch_files] (lines 77-90) *)

(** [{x.full_path: x for x in override_patch_files}]: a later record with
    the same path replaces an earlier one. *)
Definition override_paths (override_patch_files : list PatchFile)
    : gmap string PatchFile :=
  foldl (λ m x, <[full_path x := x]> m) ∅ override_patch_files.

Definition merge_patch_files (patch_files override_patch_files : list PatchFile)
    : list PatchFile :=
  let paths := override_paths override_patch_files in
  let get_pf := λ pf, default pf (paths !! full_path pf) in
  get_pf <$> patch_files.

(** The saved records with a given path, in saved order. *)
Definition with_path (p : string) (saved : list PatchFile) : list PatchFile :=
  filter (λ s, full_path s = p) saved.

(** ** The reporter: [get_preferred_index_patches] and [config_stats]
    (lines 137-174) *)

(** [if patch_file.preferred_index:] is Python truthiness: false on [None]
    and on [0]. *)
Definition truthy (p : option Z) : bool :=
  match p with
  | Some z => bool_decide (z ≠ 0)
  | None => false
  end.

(** One iteration of lines 139-143: create the list for a new key, then
    append the name. *)
Definition index_step (index_map : gmap Z (list string))
    (patch_file : PatchFile) : gmap Z (list string) :=
  match preferred_index patch_file with
  | Some p =>
    if truthy (Some p) then
      <[p := default [] (index_map !! p) ++ [name patch_file]]> index_map
    else index_map
  | None => index_map
  end.

Definition get_preferred_index_patches (patch_files : list PatchFile)
    : gmap Z (list string) :=
  foldl index_step ∅ patch_files.

(** [sorted(preferred_index_patches.keys())]. *)
Definition sorted_keys (m : gmap Z (list string)) : list Z :=
  merge_sort Z.le (elements (dom m)).

(** The figures [config_stats] prints; a line of [preferred_index_strs] is
    the conflict mark ([true] for ['*']), the slot and the name. *)
Record report := mkReport {
  total_patches : nat;
  active_patches : nat;
  preferred_index_patch_count : nat;
  preferred_index_strs : list (bool * Z * string)
}.

(** Lines 154-164 of [config_stats], on the records read from the
    configuration. *)
Definition config_stats (patch_files : list PatchFile) : report :=
  let preferred_index_patches := get_preferred_index_patches patch_files in
  let names := λ i, default [] (preferred_index_patches !! i) in
  mkReport
    (length patch_files)
    (length (filter is_active patch_files))
    (sum_list (length ∘ names <$> (map_to_list preferred_index_patches).*1))
    (i ← sorted_keys preferred_index_patches;
     let conflict_char := bool_decide (1 < length (names i))%nat in
     (λ p, (conflict_char, i, p)) <$> names i).

(** ** The configuration file: [create_config] and
    [get_patch_files_from_config] (lines 93-124) *)

(** The values [json.loads] yields and [json.dumps] accepts here (no
    floats: no field of a well-formed record holds one). *)
Inductive json :=
  | JNull
  | JBool (b : bool)
  | JInt (z : Z)
  | JStr (s : string)
  | JList (l : list json)
  | JObj (m : gmap string json).

(** [PatchFile.config] (lines 47-54). *)
Definition config (pf : PatchFile) : gmap string json :=
  <["name" := JStr (name pf)]>
    (<["full_path" := JStr (full_path pf)]>
       (<["file_name" := JStr (file_name pf)]>
          (<["active" := JBool (active pf)]>
             (<["preferred_index" :=
                  match preferred_index pf with
                  | Some z => JInt z
                  | None => JNull
                  end]> ∅)))).

(** What [PatchFile( **x )] builds from a loaded object: the dataclass checks
    no types, so each field holds the loaded value as it is. *)
Record RawPatchFile := mkRaw {
  raw_full_path : json;
  raw_file_name : json;
  raw_name : json;
  raw_active : json;
  raw_preferred_index : json
}.

(** A well-formed record seen as the loader sees records. *)
Definition raw (pf : PatchFile) : RawPatchFile :=
  mkRaw (JStr (full_path pf)) (JStr (file_name pf)) (JStr (name pf))
        (JBool (active pf))
        (match preferred_index pf with Some z => JInt z | None => JNull end).

(** The well-formed record a loaded record stands for, when its fields
    hold values of the declared types. *)
Definition typed (r : RawPatchFile) : option PatchFile :=
  match raw_full_path r, raw_file_name r, raw_name r, raw_active r with
  | JStr fp, JStr fn, JStr n, JBool a =>
    match raw_preferred_index r with
    | JInt z => Some (mkPatchFile fp fn n a (Some z))
    | JNull => Some (mkPatchFile fp fn n a None)
    | _ => None
    end
  | _, _, _, _ => None
  end.

Definition field_names : gset string :=
  {[ "full_path"; "file_name"; "name"; "active"; "preferred_index" ]}.

(** [PatchFile( **x )] on a mapping: an unknown keyword or a missing required
    field is a [TypeError] (here [None]); [active] and [preferred_index]
    take their defaults when absent. *)
Definition PatchFile_kwargs (x : gmap string json) : option RawPatchFile :=
  if bool_decide (dom x ⊆ field_names) then
    fp ← x !! "full_path";
    fn ← x !! "file_name";
    n ← x !! "name";
    Some (mkRaw fp fn n (default (JBool true) (x !! "active"))
                (default JNull (x !! "preferred_index")))
  else None.

(** [PatchFile( **x )] on any loaded value: only a mapping can be unpacked. *)
Definition PatchFile_of (x : json) : option RawPatchFile :=
  match x with
  | JObj m => PatchFile_kwargs m
  | _ => None
  end.

(** [[PatchFile( **x ) for x in json.loads(txt)]]: iterating a list yields its
    items; iterating an object or a string yields strings, which cannot be
    unpacked; anything else is not iterable.  [None] is an exception. *)
Definition load_patch_files (j : json) : option (list RawPatchFile) :=
  match j with
  | JList l => mapM PatchFile_of l
  | JObj m => if bool_decide (dom m = ∅) then Some [] else None
  | JStr s => if bool_decide (s = "") then Some [] else None
  | _ => None
  end.

Section codec.
(** [json.dumps(..., indent=4, sort_keys=True)] and [json.loads], taken as
    the library provides them, over the contents of a file: [loads] fails
    on contents that are not JSON and reads back what [dumps] wrote. *)
Context {text : Type}.
Variable dumps : json → text.
Variable loads : text → option json.

(** [create_config]: the file system after the write. *)
Definition create_config (patch_files : list PatchFile) (file_name : string)
    (fs : gmap string text) : gmap string text :=
  <[file_name := dumps (JList (JObj ∘ config <$> patch_files))]> fs.

(** [get_patch_files_from_config]: opening a missing file raises; any
    exception while parsing or building the records prints the cause and
    exits with status 1. *)
Definition get_patch_files_from_config (config_path : string)
    (fs : gmap string text) : outcome (list RawPatchFile) :=
  match fs !! config_path with
  | None => Raised FileNotFoundError
  | Some txt =>
    match loads txt ≫= load_patch_files with
    | Some patch_files => Returned patch_files
    | None => Exited 1
    end
  end.
End codec.

(** The names of the entries that ask for slot [k], in list order. *)
Definition requested (k : Z) (patch_files : list PatchFile) : list string :=
  name <$> filter (λ pf, preferred_index pf = Some k) patch_files.

(** ** File names: the scanner [get_patch_files] (lines 57-74) and the
    destination names of [copy_files] (line 237) *)

(** A [str] is modelled by the string of its characters, a file name being
    made of ASCII characters.  [s.startswith(p)]: *)
Fixpoint startswith (s p : string) {struct p} : bool :=
  match p, s with
  | EmptyString, _ => true
  | String a p', String b s' => bool_decide (a = b) && startswith s' p'
  | String _ _, EmptyString => false
  end.

(** [s.endswith(suffix)]: some tail of [s] is [suffix]. *)
Fixpoint endswith (s suffix : string) : bool :=
  bool_decide (s = suffix)
  || match s with
     | String _ s' => endswith s' suffix
     | EmptyString => false
     end.

(** What the pattern [\d] matches among ASCII characters: the digits [0]
    to [9].  (On a [str], [\d] also matches the decimal digits of other
    scripts; the statements about the scanner that depend on it are made for
    names of ASCII characters.) *)
Definition is_digit (c : Ascii.ascii) : bool :=
  bool_decide (48 ≤ Ascii.nat_of_ascii c ≤ 57)%nat.

Fixpoint drop_chars (n : nat) (s : string) : string :=
  match n, s with
  | S n', String _ s' => drop_chars n' s'
  | _, _ => s
  end.

(** [re.sub(r'^\d\d\d_zoia_', '', f)]: the pattern is anchored at the
    start of the name, so at most one occurrence is removed. *)
Definition strip_index (f : string) : string :=
  match f with
  | String a (String b (String c rest)) =>
    if is_digit a && is_digit b && is_digit c && startswith rest "_zoia_"
    then drop_chars 6 rest
    else f
  | _ => f
  end.

(** [os.path.join(a, b)] of [posixpath]. *)
Definition path_join (a b : string) : string :=
  if startswith b "/" then b
  else if bool_decide (a = "") || endswith a "/" then a +:+ b
  else a +:+ "/" +:+ b.

(** [get_patch_files], on the names [os.listdir(patch_dir)] returned, in
    the order it returned them. *)
Fixpoint get_patch_files (patch_dir : string) (files : list string)
    : list PatchFile :=
  match files with
  | [] => []
  | f :: files' =>
    if negb (endswith f ".bin") then get_patch_files patch_dir files'
    else
      mkPatchFile (path_join patch_dir f) f (strip_index f) true None
        :: get_patch_files patch_dir files'
  end.

(** Names made of ASCII characters. *)
Fixpoint is_ascii (s : string) : bool :=
  match s with
  | EmptyString => true
  | String c s' => bool_decide (Ascii.nat_of_ascii c < 128)%nat && is_ascii s'
  end.

(** The record the scanner makes of a listed name. *)
Definition scanned (patch_dir f : string) : PatchFile :=
  mkPatchFile (path_join patch_dir f) f (strip_index f) true None.

Fixpoint zeros (n : nat) : string :=
  match n with
  | O => ""
  | S n' => "0" +:+ zeros n'
  end.

(** The format [{i:03}] of a cell index: decimal digits, zero-padded on
    the left to three characters. *)
Definition format_03 (i : nat) : string :=
  zeros (3 - String.length (pretty i)) +:+ pretty i.

(** [f"{i:03}_zoia_{pf.name}"], the name of the copy made for cell [i]. *)
Definition copy_name (i : nat) (pf : PatchFile) : string :=
  format_03 i +:+ "_zoia_" +:+ name pf.

(** [copy_path = os.path.join(dest_dir, f"{i:03}_zoia_{pf.name}")]. *)
Definition copy_path (dest_dir : string) (i : nat) (pf : PatchFile) : string :=
  path_join dest_dir (copy_name i pf).

(** The calls [copyfile(pf.full_path, copy_path)] of a run, in order. *)
Definition copyfile_calls (dest_dir : string) (r : run)
    : list (string * string) :=
  (λ c, (full_path c.2, copy_path dest_dir c.1 c.2)) <$> copied r.

(** What a call decides about the slots, its printed lines left aside. *)
Definition placement (o : outcome run)
    : outcome (list (option PatchFile) * list (nat * PatchFile)) :=
  r ← o ;;; Returned (table r, copied r).

(** ** Copying on a file system (lines 233-240) *)

(** [shutil.copyfile(src, dst)] on a file system of type [FS]: the call
    leaves a file system behind and either returns ([None]) or raises, as
    it does on a missing source, on a missing destination directory or on a
    directory in the place of a file. *)
Definition copier (FS : Type) : Type :=
  string → string → FS → FS * option exn.

(** Lines 233-240 with the copies carried out: the first [copyfile] that
    raises ends the loop, and the call, with what was copied before left in
    place. *)
Fixpoint copy_loop_on {FS} (copyfile : copier FS) (dest_dir : string)
    (verbose : bool) (cells : list nat) (order : list (option PatchFile))
    (σ : FS) : FS * outcome (list (nat * PatchFile) * list line) :=
  match cells with
  | [] => (σ, Returned ([], []))
  | i :: cells' =>
    match order !! i with
    | None => (σ, Raised IndexError)
    | Some None => copy_loop_on copyfile dest_dir verbose cells' order σ
    | Some (Some pf) =>
      match copyfile (full_path pf) (copy_path dest_dir i pf) σ with
      | (σ1, Some e) => (σ1, Raised e)
      | (σ1, None) =>
        let c := copy_loop_on copyfile dest_dir verbose cells' order σ1 in
        (c.1, r ← c.2 ;;;
              Returned ((i, pf) :: r.1,
                        if verbose then Created i pf :: r.2 else r.2))
      end
    end
  end.

(** [copy_files(patch_files, dest_dir, verbose)] on a file system: the two
    first loops touch no file, the third copies. *)
Definition copy_files_on {FS} (copyfile : copier FS)
    (patch_files : list PatchFile) (dest_dir : string) (verbose : bool)
    (σ : FS) : FS * outcome run :=
  match place_loop verbose patch_files alloc_init with
  | Returned st =>
    match fill_loop (seq 0 page_size) (patch_order st)
                    (unordered_patches st) with
    | Returned f =>
      let c := copy_loop_on copyfile dest_dir verbose (seq 0 page_size)
                            f.1 σ in
      (c.1, k ← c.2 ;;; Returned (mkRun f.1 f.2 (stdout st ++ k.2) k.1))
    | Raised e => (σ, Raised e)
    | Exited s => (σ, Exited s)
    end
  | Raised e => (σ, Raised e)
  | Exited s => (σ, Exited s)
  end.

(** A list of [copyfile] calls made one after the other, up to the first
    that raises. *)
Fixpoint copy_all {FS} (copyfile : copier FS) (calls : list (string * string))
    (σ : FS) : FS * option exn :=
  match calls with
  | [] => (σ, None)
  | c :: calls' =>
    match copyfile c.1 c.2 σ with
    | (σ1, Some e) => (σ1, Some e)
    | (σ1, None) => copy_all copyfile calls' σ1
    end
  end.

(** What becomes of a run whose slots are settled once its copies are made:
    it is the result when every copy returns, and the exception of the first
    copy that raises otherwise. *)
Definition carry_out {FS} (copyfile : copier FS) (dest_dir : string)
    (r : run) (σ : FS) : FS * outcome run :=
  let c := copy_all copyfile (copyfile_calls dest_dir r) σ in
  (c.1, match c.2 with
        | None => Returned r
        | Some e => Raised e
        end).

(** A file system for the examples: the paths that hold a file, the last
    written first; copying from a path that holds none raises
    [FileNotFoundError]. *)
Definition copyfile_paths : copier (list string) :=
  λ src dst σ,
    if bool_decide (src ∈ σ) then (dst :: σ, None)
    else (σ, Some FileNotFoundError).

(** ** Clearing the destination: [delete_files_in_dir] (lines 181-197) *)

(** What a name of the directory refers to: [os.remove] deletes a file and
    raises on a directory. *)
Inductive node := File | Directory.

(** Lines 191-197 over the names [os.listdir(dest_dir)] returned; [None]
    when [os.remove] raises. *)
Fixpoint delete_loop (listing : list string) (d : gmap string node)
    : option (gmap string node) :=
  match listing with
  | [] => Some d
  | f :: listing' =>
    if startswith f "." then delete_loop listing' d
    else
      match d !! f with
      | Some File => delete_loop listing' (delete f d)
      | _ => None
      end
  end.

Definition delete_files_in_dir (d : gmap string node)
    : option (gmap string node) :=
  delete_loop (map_to_list d).*1 d.

(** The keyword arguments [PatchFile] cannot do without. *)
Definition required_fields : gset string :=
  {[ "full_path"; "file_name"; "name" ]}.

(** Two states of the first loop that agree on everything but the lines
    printed. *)
Definition same_slots (a b : alloc) : Prop :=
  patch_order a = patch_order b
  ∧ unordered_patches a = unordered_patches b
  ∧ count a = count b.

(** Two outcomes of the first loop that agree up to the lines printed. *)
Definition same_outcome (a b : outcome alloc) : Prop :=
  match a, b with
  | Returned x, Returned y => same_slots x y
  | Raised e, Raised e' => e = e'
  | Exited s, Exited s' => s = s'
  | _, _ => False
  end.

(** A preference Python accepts as an index of the table: absent, or from
    -64 to 63. *)
Definition py_slot_ok (pf : PatchFile) : Prop :=
  match preferred_index pf with
  | Some p => -64 ≤ p < 64
  | None => True
  end.

(** The number three ASCII digits spell; 1000 for any other string. *)
Definition parse_3 (s : string) : nat :=
  match s with
  | String a (String b (String c EmptyString)) =>
    if is_digit a && is_digit b && is_digit c then
      (100 * (Ascii.nat_of_ascii a - 48) + 10 * (Ascii.nat_of_ascii b - 48)
       + (Ascii.nat_of_ascii c - 48))%nat
    else 1000%nat
  | _ => 1000%nat
  end.

(** The record the scanner makes of a copy found in [dir]. *)
Definition scanned_copy (dir : string) (c : nat * PatchFile) : PatchFile :=
  mkPatchFile (path_join dir (copy_name c.1 c.2)) (copy_name c.1 c.2)
              (name c.2) true None.

(** The loaded values the constructor accepts: objects that give the three
    required fields and no field the dataclass does not declare. *)
Definition accepted (x : json) : Prop :=
  ∃ m, x = JObj m ∧ dom m ⊆ field_names ∧ required_fields ⊆ dom m.

(** * Properties *)

(** ** Python indexing *)

Lemma py_index_lt len i c : py_index len i = Some c → (c < len)%nat.
Proof.
  unfold py_index. repeat case_bool_decide; intros; simplify_eq; lia.
Qed.

Lemma py_index_nonneg len i :
  0 ≤ i < Z.of_nat len → py_index len i = Some (Z.to_nat i).
Proof. intros. unfold py_index. by rewrite bool_decide_eq_true_2. Qed.

Lemma py_index_negative len i :
  - Z.of_nat len ≤ i < 0 → py_index len i = Some (Z.to_nat (Z.of_nat len + i)).
Proof.
  intros. unfold py_index.
  rewrite bool_decide_eq_false_2 by lia. by rewrite bool_decide_eq_true_2.
Qed.

Lemma py_index_None len i :
  ¬ (- Z.of_nat len ≤ i < Z.of_nat len) → py_index len i = None.
Proof.
  intros. unfold py_index. by rewrite !bool_decide_eq_false_2 by lia.
Qed.

Lemma claims_slot_ok x c :
  slot_ok x → claims x c ↔ preferred_index x = Some (Z.of_nat c).
Proof.
  unfold slot_ok, claims. destruct (preferred_index x) as [p|]; intros Hp.
  - split.
    + intros (q & [= <-] & Hq). rewrite py_index_nonneg in Hq by lia.
      f_equal. injection Hq as <-. lia.
    + intros [= ->]. eexists; split; [done|].
      rewrite py_index_nonneg by lia. f_equal. lia.
  - split; [by intros (? & ? & ?)|done].
Qed.

(** ** Tables *)

Lemma filled_insert (t : list (option PatchFile)) c x :
  t !! c = Some None → filled (<[c := Some x]> t) ≡ₚ x :: filled t.
Proof.
  unfold filled. revert c. induction t as [|o t IH]; intros [|c] Hc;
    simplify_eq/=; [done|].
  destruct o; rewrite (IH _ Hc); [apply Permutation_swap|done].
Qed.

Lemma free_insert (t : list (option PatchFile)) c x :
  t !! c = Some None → S (free (<[c := Some x]> t)) = free t.
Proof.
  revert c. induction t as [|o t IH]; intros [|c] Hc; simplify_eq/=; [done|].
  specialize (IH _ Hc). destruct o; lia.
Qed.

Lemma filled_free_length (t : list (option PatchFile)) :
  (length (filled t) + free t = length t)%nat.
Proof. unfold filled. induction t as [|[x|] t IH]; csimpl; lia. Qed.

Lemma filled_lookup (t : list (option PatchFile)) x :
  x ∈ filled t ↔ ∃ c, t !! c = Some (Some x).
Proof.
  unfold filled. rewrite list_elem_of_omap. split.
  - intros (o & Ho & Hx). simpl in Hx. subst o.
    apply list_elem_of_lookup in Ho.
    destruct Ho as [c Hc]. eauto.
  - intros [c Hc]. exists (Some x). split; [|done].
    apply list_elem_of_lookup. eauto.
Qed.

Lemma filled_NoDup_cells (t : list (option PatchFile)) i j x :
  NoDup (filled t) → t !! i = Some (Some x) → t !! j = Some (Some x) → i = j.
Proof.
  unfold filled. revert i j. induction t as [|o t IH]; intros i j Hnd Hi Hj;
    [done|].
  destruct i as [|i], j as [|j]; simplify_eq/=; [done|..].
  - apply NoDup_cons in Hnd as [Hx _]. destruct Hx.
    apply filled_lookup. eauto.
  - apply NoDup_cons in Hnd as [Hx _]. destruct Hx.
    apply filled_lookup. eauto.
  - f_equal. apply IH; [|done..]. destruct o; [|done].
    simpl in Hnd. by apply NoDup_cons in Hnd as [_ ?].
Qed.

(** ** The placement loop (lines 213-225) *)

(** The three ways an active entry is consumed below the limit. *)
Lemma place_loop_active v x l st :
  ¬ (page_size < count st)%nat → is_active x →
  place_loop v (x :: l) st =
    match preferred_index x with
    | Some p =>
      match py_index (length (patch_order st)) p with
      | None => Raised IndexError
      | Some c =>
        match patch_order st !! c with
        | Some None => place_loop v l (pin c x st)
        | _ => place_loop v l (enqueue x st)
        end
      end
    | None => place_loop v l (enqueue x st)
    end.
Proof.
  intros Hc Hx. simpl. rewrite bool_decide_eq_false_2 by done.
  unfold is_active in Hx. by rewrite Hx.
Qed.

Lemma place_loop_inactive v x l st :
  ¬ (page_size < count st)%nat → ¬ is_active x →
  place_loop v (x :: l) st =
    if v then Raised TypeError else place_loop v l st.
Proof.
  intros Hc Hx. simpl. rewrite bool_decide_eq_false_2 by done.
  unfold is_active in Hx. by destruct (active x).
Qed.

Lemma place_loop_full v x l st :
  (page_size < count st)%nat →
  place_loop v (x :: l) st = Returned (say (HitPatchLimit page_size) st).
Proof. intros Hc. simpl. by rewrite bool_decide_eq_true_2. Qed.

(** Case analysis on one iteration of the loop, leaving one goal per
    branch of the source with the recursive call exposed. *)
Ltac place_cases x st H :=
  let Hc := fresh "Hcount" in
  let Hx := fresh "Hact" in
  destruct (decide (page_size < count st)%nat) as [Hc|Hc];
  [ rewrite (place_loop_full _ _ _ _ Hc) in H
  | destruct (decide (is_active x)) as [Hx|Hx];
    [ rewrite (place_loop_active _ _ _ _ Hc Hx) in H;
      destruct (preferred_index x) as [?p|] eqn:?Hpref;
      [ match type of H with
        | context [py_index ?n ?q] =>
          destruct (py_index n q) as [?c|] eqn:?Hidx
        end;
        [ match type of H with
          | context [patch_order st !! ?d] =>
            destruct (patch_order st !! d) as [[?y|]|] eqn:?Hcell
          end |]
      |]
    | rewrite (place_loop_inactive _ _ _ _ Hc Hx) in H ] ].

Local Ltac place_inv_step IH H :=
  let Hlen := fresh "Hlen" in
  let Hcnt := fresh "Hcnt" in
  let Hperm := fresh "Hperm" in
  destruct (IH _ H) as (Hlen & Hcnt & Hperm); clear IH H;
  rewrite filter_cons_True by done;
  match goal with
  | Hc : ¬ (page_size < count ?st)%nat |- _ =>
    replace (S page_size - count st)%nat
      with (S (page_size - count st)) by lia
  end;
  simpl in *;
  try (split_and!; [done|lia|]; rewrite Hperm).

(** The loop consumes the first [65 - count] active entries, each of which
    ends in a cell or in the queue, and counts them. *)
Lemma place_loop_inv v l st st' :
  place_loop v l st = Returned st' →
  length (patch_order st') = length (patch_order st)
  ∧ count st' =
      (count st + length (take (S page_size - count st) (filter is_active l)))%nat
  ∧ filled (patch_order st') ++ unordered_patches st' ≡ₚ
      (filled (patch_order st) ++ unordered_patches st)
        ++ take (S page_size - count st) (filter is_active l).
Proof.
  revert st. induction l as [|x l IH]; intros st H.
  { simpl in H. simplify_eq. rewrite filter_nil, take_nil, app_nil_r.
    simpl. split_and!; [done|lia|done]. }
  place_cases x st H.
  - simplify_eq. replace (S page_size - count st)%nat with 0%nat by lia.
    rewrite take_0, app_nil_r. simpl. split_and!; [done|lia|done].
  - place_inv_step IH H. by rewrite <-!(assoc_L (++)).
  - place_inv_step IH H. rewrite length_insert in Hlen.
    rewrite filled_insert in Hperm by done.
    split_and!; [done|lia|]. rewrite Hperm. simpl.
    by rewrite <-!Permutation_middle.
  - place_inv_step IH H. by rewrite <-!(assoc_L (++)).
  - done.
  - place_inv_step IH H. by rewrite <-!(assoc_L (++)).
  - rewrite filter_cons_False by done. destruct v; [done|]. by apply IH.
Qed.

(** A filled cell is never overwritten, and the queue only grows. *)
Lemma place_loop_keeps v l st st' c x :
  place_loop v l st = Returned st' →
  patch_order st !! c = Some (Some x) →
  patch_order st' !! c = Some (Some x).
Proof.
  revert st. induction l as [|y l IH]; intros st H Hc.
  { simpl in H. by simplify_eq. }
  place_cases y st H; try (by simplify_eq/=); try (by eapply IH).
  - eapply IH; [done|]. simpl. rewrite list_lookup_insert_ne; [done|].
    intros ->. congruence.
  - destruct v; [done|]. by eapply IH.
Qed.

Lemma place_loop_queue_keeps v l st st' x :
  place_loop v l st = Returned st' →
  x ∈ unordered_patches st → x ∈ unordered_patches st'.
Proof.
  revert st. induction l as [|y l IH]; intros st H Hx.
  { simpl in H. by simplify_eq. }
  place_cases y st H; try (by simplify_eq/=); try (by eapply IH);
    try (eapply IH; [done|]; simpl; set_solver).
  destruct v; [done|]. by eapply IH.
Qed.

(** An empty cell that no active entry of the list asks for stays empty. *)
Lemma place_loop_unclaimed v l st st' c :
  place_loop v l st = Returned st' →
  length (patch_order st) = 64%nat →
  patch_order st !! c = Some None →
  (∀ x, x ∈ l → is_active x → ¬ claims x c) →
  patch_order st' !! c = Some None.
Proof.
  revert st. induction l as [|y l IH]; intros st H Hlen Hc Hno.
  { simpl in H. by simplify_eq. }
  assert (∀ x, x ∈ l → is_active x → ¬ claims x c) as Hno'
    by (intros; apply Hno; [set_solver|done]).
  place_cases y st H; try (by simplify_eq/=); try (by eapply IH).
  - eapply IH; [done|by simpl; rewrite length_insert| |done].
    simpl. rewrite list_lookup_insert_ne; [done|]. intros ->.
    apply (Hno y); [set_solver|done|]. exists p. by rewrite <-Hlen.
  - destruct v; [done|]. by eapply IH.
Qed.

(** Below the limit the loop over a concatenation is the loop over its
    first part followed by the loop over the rest. *)
Lemma place_loop_app v l1 l2 st :
  (count st + length (filter is_active l1) ≤ page_size)%nat →
  place_loop v (l1 ++ l2) st = (st1 ← place_loop v l1 st ;;; place_loop v l2 st1).
Proof.
  revert st. induction l1 as [|x l1 IH]; intros st Hc; [done|].
  rewrite <-app_comm_cons. destruct (decide (is_active x)) as [Hx|Hx].
  - rewrite filter_cons_True in Hc by done. simpl in Hc.
    rewrite !place_loop_active by (done || lia).
    repeat case_match; try done; apply IH; simpl; lia.
  - rewrite filter_cons_False in Hc by done.
    rewrite !place_loop_inactive by (done || lia).
    destruct v; [done|]. by apply IH.
Qed.

(** An active entry met below the limit whose cell is empty is pinned. *)
Lemma place_loop_pin_head v E l st st' c :
  place_loop v (E :: l) st = Returned st' →
  length (patch_order st) = 64%nat →
  (count st ≤ page_size)%nat → is_active E → claims E c →
  patch_order st !! c = Some None →
  patch_order st' !! c = Some (Some E).
Proof.
  intros H Hlen Hcnt HE (p & Hp & Hidx) Hc.
  rewrite place_loop_active in H by (done || lia).
  rewrite Hp, Hlen, Hidx, Hc in H.
  eapply place_loop_keeps; [done|]. simpl. apply list_lookup_insert_eq.
  apply py_index_lt in Hidx. lia.
Qed.

(** An active entry met below the limit whose cell is taken is queued. *)
Lemma place_loop_demote_head v Y l st st' c x :
  place_loop v (Y :: l) st = Returned st' →
  length (patch_order st) = 64%nat →
  (count st ≤ page_size)%nat → is_active Y → claims Y c →
  patch_order st !! c = Some (Some x) →
  Y ∈ unordered_patches st'.
Proof.
  intros H Hlen Hcnt HY (p & Hp & Hidx) Hc.
  rewrite place_loop_active in H by (done || lia).
  rewrite Hp, Hlen, Hidx, Hc in H.
  eapply place_loop_queue_keeps; [done|]. simpl. set_solver.
Qed.

(** An active entry without a preference met below the limit is queued. *)
Lemma place_loop_nopref_head v Y l st st' :
  place_loop v (Y :: l) st = Returned st' →
  (count st ≤ page_size)%nat → is_active Y → preferred_index Y = None →
  Y ∈ unordered_patches st'.
Proof.
  intros H Hcnt HY Hp.
  rewrite place_loop_active in H by (done || lia). rewrite Hp in H.
  eapply place_loop_queue_keeps; [done|]. simpl. set_solver.
Qed.

(** The first active entry asking for an empty cell gets it. *)
Lemma place_loop_pins v l1 E l2 st st' c :
  place_loop v (l1 ++ E :: l2) st = Returned st' →
  length (patch_order st) = 64%nat →
  (count st + length (filter is_active l1) < S page_size)%nat →
  patch_order st !! c = Some None →
  (∀ x, x ∈ l1 → is_active x → ¬ claims x c) →
  is_active E → claims E c →
  patch_order st' !! c = Some (Some E).
Proof.
  intros H Hlen Hcnt Hc Hno HE HEc.
  rewrite place_loop_app in H by lia.
  destruct (place_loop v l1 st) as [st1| |] eqn:H1; [simpl in H|done..].
  destruct (place_loop_inv _ _ _ _ H1) as (Hlen1 & Hcnt1 & _).
  eapply place_loop_pin_head; [done|congruence| |done|done|].
  - rewrite Hcnt1, length_take. lia.
  - by eapply place_loop_unclaimed.
Qed.

Lemma slot_ok_index_ok x : slot_ok x → index_ok x.
Proof.
  unfold slot_ok, index_ok. intros H p Hp. rewrite Hp in H.
  rewrite py_index_nonneg by lia. eauto.
Qed.

Lemma place_loop_returns v l st :
  length (patch_order st) = 64%nat →
  Forall index_ok l → (v = true → Forall is_active l) →
  ∃ st', place_loop v l st = Returned st'.
Proof.
  revert st. induction l as [|x l IH]; intros st Hlen Hok Hv; [by eexists|].
  apply Forall_cons in Hok as [Hx Hok].
  assert (v = true → Forall is_active l) as Hv'
    by (intros Ht; by apply Forall_cons in Hv as [_ ?]).
  destruct (decide (page_size < count st)%nat) as [Hc|Hc].
  { rewrite place_loop_full by done. by eexists. }
  destruct (decide (is_active x)) as [Ha|Ha].
  - rewrite place_loop_active by done.
    destruct (preferred_index x) as [p|] eqn:Hp; [|by apply IH].
    rewrite Hlen. destruct (Hx p Hp) as [c ->].
    repeat case_match; apply IH; simpl; by rewrite ?length_insert.
  - rewrite place_loop_inactive by done. destruct v; [|by apply IH].
    by apply Forall_cons in Hv as [? _].
Qed.

(** ** The fill loop (lines 227-231) *)

Lemma fifo_fill_nil_queue cells : fifo_fill cells [] = (cells, []).
Proof. induction cells as [|[x|] cells IH]; simpl; by rewrite ?IH. Qed.

(** The index-driven loop of the source computes [fifo_fill] on the cells
    it still has to visit. *)
Lemma fill_loop_fifo_fill done todo queue :
  fill_loop (seq (length done) (length todo)) (done ++ todo) queue =
    Returned (done ++ (fifo_fill todo queue).1, (fifo_fill todo queue).2).
Proof.
  revert done queue. induction todo as [|o todo IH]; intros done queue.
  { destruct queue; simpl; by rewrite app_nil_r. }
  destruct queue as [|e queue]; [by rewrite fifo_fill_nil_queue|]. simpl.
  rewrite lookup_app_r, Nat.sub_diag by done. simpl.
  destruct o as [x|]; simpl.
  - specialize (IH (done ++ [Some x]) (e :: queue)).
    rewrite length_app, Nat.add_1_r, <-(assoc_L (++)) in IH. simpl in IH.
    by rewrite IH, <-(assoc_L (++)).
  - rewrite insert_app_r_alt, Nat.sub_diag by done. simpl.
    specialize (IH (done ++ [Some e]) queue).
    rewrite length_app, Nat.add_1_r, <-(assoc_L (++)) in IH. simpl in IH.
    by rewrite IH, <-(assoc_L (++)).
Qed.

Lemma fill_loop_table (order : list (option PatchFile)) queue :
  length order = page_size →
  fill_loop (seq 0 page_size) order queue = Returned (fifo_fill order queue).
Proof.
  intros Hlen. pose proof (fill_loop_fifo_fill [] order queue) as H.
  rewrite Hlen, !app_nil_l in H. change (length []) with 0%nat in H.
  rewrite H. by destruct (fifo_fill _ _).
Qed.

Lemma fifo_fill_length cells queue :
  length (fifo_fill cells queue).1 = length cells.
Proof.
  revert queue. induction cells as [|[x|] cells IH]; intros queue; simpl;
    [done|by rewrite IH|]. destruct queue; simpl; by rewrite ?IH.
Qed.

(** A filled cell keeps its entry. *)
Lemma fifo_fill_keeps cells queue c x :
  cells !! c = Some (Some x) → (fifo_fill cells queue).1 !! c = Some (Some x).
Proof.
  revert queue c.
  induction cells as [|[y|] cells IH]; intros queue [|c] Hc; simplify_eq/=;
    [done|by apply IH|].
  destruct queue; simpl; [done|by apply IH].
Qed.

(** An empty cell receives the queued entry whose rank is the number of
    empty cells before it, and stays empty when the queue is shorter. *)
Lemma fifo_fill_open cells queue c :
  cells !! c = Some None →
  (fifo_fill cells queue).1 !! c = Some (queue !! free (take c cells)).
Proof.
  revert queue c.
  induction cells as [|[y|] cells IH]; intros queue [|c] Hc; simplify_eq/=.
  - by apply IH.
  - by destruct queue.
  - destruct queue; simpl; [done|by apply IH].
Qed.

(** What is left in the queue, and what went into the table. *)
Lemma fifo_fill_leftover cells queue :
  (fifo_fill cells queue).2 = drop (free cells) queue.
Proof.
  revert queue. induction cells as [|[x|] cells IH]; intros queue; simpl;
    [done|by rewrite IH|]. destruct queue; simpl; by rewrite ?IH.
Qed.

Lemma fifo_fill_filled cells queue :
  filled (fifo_fill cells queue).1 ≡ₚ filled cells ++ take (free cells) queue.
Proof.
  unfold filled. revert queue.
  induction cells as [|[x|] cells IH]; intros queue; csimpl.
  - by rewrite take_0.
  - by rewrite IH.
  - destruct queue as [|e queue]; csimpl; [by rewrite app_nil_r|].
    by rewrite IH, <-Permutation_middle.
Qed.

(** A cell filled at the end was filled before or holds a queued entry. *)
Lemma fifo_fill_from cells queue c x :
  (fifo_fill cells queue).1 !! c = Some (Some x) →
  cells !! c = Some (Some x) ∨ (cells !! c = Some None ∧ x ∈ queue).
Proof.
  revert queue c.
  induction cells as [|[y|] cells IH]; intros queue [|c] Hc; simplify_eq/=;
    auto.
  - destruct queue as [|e queue]; simplify_eq/=. right. split; [done|].
    set_solver.
  - destruct queue as [|e queue]; simpl in Hc; [auto|].
    destruct (IH _ _ Hc) as [?|[? ?]]; auto. right. split; [done|set_solver].
Qed.

(** ** The copy loop (lines 233-240) *)

Lemma copy_loop_filled v done todo :
  ∃ r, copy_loop v (seq (length done) (length todo)) (done ++ todo) = Returned r
    ∧ r.1.*2 = filled todo
    ∧ (∀ i x, (i, x) ∈ r.1 ↔
         (length done ≤ i)%nat ∧ (done ++ todo) !! i = Some (Some x))
    ∧ (v = false → r.2 = []).
Proof.
  revert done. induction todo as [|o todo IH]; intros done.
  { eexists. split_and!; [done..| |done]. intros i x. split; [set_solver|].
    intros [Hi Hx]. rewrite app_nil_r in Hx. apply lookup_lt_Some in Hx. lia. }
  simpl. rewrite lookup_app_r, Nat.sub_diag by done. simpl.
  specialize (IH (done ++ [o])).
  rewrite length_app, Nat.add_1_r, <-(assoc_L (++)) in IH. simpl in IH.
  destruct IH as (r & -> & Hr & Hin & Hv). unfold filled in *.
  assert (∀ i x, (length done ≤ i)%nat ∧ (done ++ o :: todo) !! i = Some (Some x)
            ↔ (i = length done ∧ o = Some x) ∨ (i, x) ∈ r.1) as Hsplit.
  { intros i x. rewrite Hin. destruct (decide (i = length done)) as [->|].
    - rewrite lookup_app_r, Nat.sub_diag by done. simpl.
      split; [intros [_ [= ->]]; auto|]. intros [[_ ->]|[? _]]; [done|lia].
    - split; [intros [? ?]; right; split; [lia|done]|].
      intros [[? _]|[? ?]]; [done|]. split; [lia|done]. }
  destruct o as [x|]; simpl.
  - eexists. split_and!; [done|by csimpl; rewrite Hr| |by destruct v; auto].
    intros i y. simpl. rewrite Hsplit, elem_of_cons. split.
    + intros [[= -> ->]|?]; auto.
    + intros [[-> [= ->]]|?]; auto.
  - exists r. split_and!; [done..| |done].
    intros i y. rewrite Hsplit. split; [auto|]. by intros [[_ ?]|?].
Qed.

(** ** [copy_files] as the composition of its three loops *)

Lemma alloc_init_length : length (patch_order alloc_init) = page_size.
Proof. reflexivity. Qed.

Lemma copy_files_returned l v st :
  place_loop v l alloc_init = Returned st →
  ∃ r, copy_files l v = Returned r
    ∧ table r = (fifo_fill (patch_order st) (unordered_patches st)).1
    ∧ leftover r = (fifo_fill (patch_order st) (unordered_patches st)).2
    ∧ (copied r).*2 = filled (table r)
    ∧ (∀ i x, (i, x) ∈ copied r ↔ table r !! i = Some (Some x))
    ∧ (∀ ln, ln ∈ stdout st → ln ∈ printed r).
Proof.
  intros H. unfold copy_files. rewrite H. cbn [obind].
  destruct (place_loop_inv _ _ _ _ H) as (Hlen & _ & _).
  rewrite alloc_init_length in Hlen.
  rewrite fill_loop_table by done. cbn [obind].
  set (t := (fifo_fill _ _).1).
  assert (length t = page_size) as Ht
    by (unfold t; by rewrite fifo_fill_length).
  destruct (copy_loop_filled v [] t) as (c & Hc & Hc2 & Hin & _).
  rewrite Ht, app_nil_l in Hc. change (length []) with 0%nat in Hc.
  rewrite Hc. cbn [obind].
  eexists. split_and!; [done..| |]; cbn [table copied printed].
  - intros i x. rewrite Hin, app_nil_l. split; [by intros [_ ?]|].
    intros ?. split; [cbn [length]; lia|done].
  - intros ln ?. apply elem_of_app. by left.
Qed.

Lemma copy_files_inv l v r :
  copy_files l v = Returned r →
  ∃ st, place_loop v l alloc_init = Returned st.
Proof.
  unfold copy_files. destruct (place_loop v l alloc_init); [eauto|done..].
Qed.

(** ** Consequences for a whole run *)

(** The queue built by the first loop lists active input entries in input
    order. *)
Lemma place_loop_queue_order v l st st' :
  place_loop v l st = Returned st' →
  ∃ q, unordered_patches st' = unordered_patches st ++ q
       ∧ q `sublist_of` filter is_active l.
Proof.
  revert st. induction l as [|x l IH]; intros st H.
  { simpl in H. simplify_eq. exists []. by rewrite app_nil_r. }
  place_cases x st H; try done.
  - simplify_eq. exists []. rewrite app_nil_r. split; [done|].
    apply sublist_nil_l.
  - destruct (IH _ H) as (q & -> & Hq). simpl. exists (x :: q).
    rewrite <-(assoc_L (++)). split; [done|].
    rewrite filter_cons_True by done. by apply sublist_skip.
  - destruct (IH _ H) as (q & -> & Hq). simpl. exists q. split; [done|].
    rewrite filter_cons_True by done. by apply sublist_cons.
  - destruct (IH _ H) as (q & -> & Hq). simpl. exists (x :: q).
    rewrite <-(assoc_L (++)). split; [done|].
    rewrite filter_cons_True by done. by apply sublist_skip.
  - destruct (IH _ H) as (q & -> & Hq). simpl. exists (x :: q).
    rewrite <-(assoc_L (++)). split; [done|].
    rewrite filter_cons_True by done. by apply sublist_skip.
  - destruct v; [done|]. rewrite filter_cons_False by done. by apply IH.
Qed.

(** The loop never ends the process. *)
Lemma place_loop_not_exited v l st s : place_loop v l st ≠ Exited s.
Proof.
  revert st. induction l as [|x l IH]; intros st H; [done|].
  place_cases x st H; try done; try (by eapply IH).
  destruct v; [done|]. by eapply IH.
Qed.

(** The warning is printed as soon as an entry is met above the limit. *)
Lemma place_loop_warns v l st st' :
  place_loop v l st = Returned st' →
  (count st ≤ S page_size)%nat →
  (page_size + 2 ≤ count st + length (filter is_active l))%nat →
  HitPatchLimit page_size ∈ stdout st'.
Proof.
  revert st. induction l as [|x l IH]; intros st H Hc Hn.
  { rewrite filter_nil in Hn. unfold page_size in *. simpl in Hn. lia. }
  place_cases x st H; try done;
    try (rewrite filter_cons_True in Hn by done;
         eapply IH; [done|unfold page_size in *; simpl in *; lia..]).
  - simplify_eq. simpl. set_solver.
  - destruct v; [done|]. rewrite filter_cons_False in Hn by done.
    by eapply IH.
Qed.

(** Every empty cell rank below [free t] is the rank of some empty cell. *)
Lemma free_rank (t : list (option PatchFile)) j :
  (j < free t)%nat → ∃ c, t !! c = Some None ∧ free (take c t) = j.
Proof.
  revert j. induction t as [|[x|] t IH]; intros j Hj; simpl in Hj; [lia|..].
  - destruct (IH j Hj) as (c & ? & ?). by exists (S c).
  - destruct j as [|j]; [by exists 0%nat|].
    destruct (IH j) as (c & ? & ?); [lia|]. exists (S c). simpl. auto.
Qed.

(** After the first loop of a run the queue fits in the empty cells. *)
Lemma place_loop_fits v l st :
  place_loop v l alloc_init = Returned st →
  length (patch_order st) = page_size
  ∧ (length (unordered_patches st) ≤ free (patch_order st))%nat
  ∧ filled (patch_order st) ++ unordered_patches st ≡ₚ
      take page_size (filter is_active l).
Proof.
  intros H. destruct (place_loop_inv _ _ _ _ H) as (Hlen & _ & Hperm).
  rewrite alloc_init_length in Hlen.
  change (count alloc_init) with 1%nat in Hperm.
  change (filled (patch_order alloc_init) ++ unordered_patches alloc_init)
    with (@nil PatchFile) in Hperm.
  replace (S page_size - 1)%nat with page_size in Hperm by lia.
  rewrite app_nil_l in Hperm. split_and!; [done| |done].
  pose proof (filled_free_length (patch_order st)) as Hf.
  apply Permutation_length in Hperm.
  rewrite length_app, length_take in Hperm. lia.
Qed.

(** A run that returns has placed exactly the first 64 active entries. *)
Lemma copy_files_placed l v r :
  copy_files l v = Returned r →
  length (table r) = page_size
  ∧ leftover r = []
  ∧ (copied r).*2 = filled (table r)
  ∧ filled (table r) ≡ₚ take page_size (filter is_active l).
Proof.
  intros Hr. destruct (copy_files_inv _ _ _ Hr) as [st Hst].
  destruct (copy_files_returned _ _ _ Hst) as (r' & Hr' & Ht & Hl & Hc & _).
  rewrite Hr in Hr'. injection Hr' as <-.
  destruct (place_loop_fits _ _ _ Hst) as (Hlen & Hfit & Hperm).
  split_and!; [| |done|].
  - by rewrite Ht, fifo_fill_length.
  - rewrite Hl, fifo_fill_leftover. by apply drop_ge.
  - rewrite Ht, fifo_fill_filled, take_ge by done. done.
Qed.

(** A run over entries whose preferences Python accepts as indices, none
    of them skipped under [verbose], returns. *)
Lemma copy_files_returns l v :
  Forall index_ok l → (v = true → Forall is_active l) →
  ∃ r, copy_files l v = Returned r.
Proof.
  intros Hok Hv.
  destruct (place_loop_returns v l alloc_init) as [st Hst]; [done..|].
  destruct (copy_files_returned _ _ _ Hst) as (r & ? & _). eauto.
Qed.

(** The first active entry, among the first 64, to ask for a cell holds it
    in the returned table. *)
Lemma copy_files_pins l1 E l2 v r c :
  copy_files (l1 ++ E :: l2) v = Returned r →
  (length (filter is_active l1) < page_size)%nat →
  (∀ x, x ∈ l1 → is_active x → ¬ claims x c) →
  is_active E → claims E c →
  table r !! c = Some (Some E).
Proof.
  intros Hr Hn Hno HE HEc. destruct (copy_files_inv _ _ _ Hr) as [st Hst].
  destruct (copy_files_returned _ _ _ Hst) as (r' & Hr' & Ht & _).
  rewrite Hr in Hr'. injection Hr' as <-. rewrite Ht.
  apply fifo_fill_keeps.
  eapply place_loop_pins; [done|done| | |done..].
  - change (count alloc_init) with 1%nat. lia.
  - destruct HEc as (p & _ & Hp%py_index_lt).
    by apply lookup_replicate_2.
Qed.

(** Every queued entry ends in a cell that was empty after the first
    loop. *)
Lemma copy_files_queue_placed l v st r y :
  place_loop v l alloc_init = Returned st →
  copy_files l v = Returned r →
  y ∈ unordered_patches st →
  ∃ c, patch_order st !! c = Some None ∧ table r !! c = Some (Some y).
Proof.
  intros Hst Hr Hy.
  destruct (copy_files_returned _ _ _ Hst) as (r' & Hr' & Ht & _).
  rewrite Hr in Hr'. injection Hr' as <-.
  destruct (place_loop_fits _ _ _ Hst) as (_ & Hfit & _).
  apply list_elem_of_lookup in Hy as [j Hj].
  destruct (free_rank (patch_order st) j) as (c & Hc & Hrank).
  { apply lookup_lt_Some in Hj. lia. }
  exists c. split; [done|]. by rewrite Ht, fifo_fill_open, Hrank, Hj.
Qed.

(** * The claims about the allocator *)

(** C1. Allocation respects pins, slot 0 included: for entries that satisfy
    the data model (every preference in [0, 63]), an active entry [E] with
    [preferred_index = k] that is among the first 64 active entries, with no
    earlier active entry preferring [k], is held by cell [k] of the table
    [copy_files] returns.  (Under [verbose] the run must not skip an
    inactive entry, which raises.) *)
Theorem copy_files_respects_pins v l1 E l2 k :
  Forall slot_ok (l1 ++ E :: l2) →
  (v = true → Forall is_active (l1 ++ E :: l2)) →
  0 ≤ k < 64 → is_active E → preferred_index E = Some k →
  (length (filter is_active l1) < 64)%nat →
  (∀ x, x ∈ l1 → is_active x → preferred_index x ≠ Some k) →
  ∃ r, copy_files (l1 ++ E :: l2) v = Returned r
       ∧ table r !! Z.to_nat k = Some (Some E).
Proof.
  intros Hok Hv Hk HE Hp Hn Hno.
  destruct (copy_files_returns (l1 ++ E :: l2) v) as [r Hr]; [|done|].
  { eapply Forall_impl; [done|]. apply slot_ok_index_ok. }
  exists r. split; [done|]. eapply copy_files_pins; [done..| | |].
  - intros x Hx Ha Hc. apply (Hno x Hx Ha).
    apply claims_slot_ok in Hc.
    + rewrite Hc. f_equal. lia.
    + apply Forall_app in Hok as [Hok _].
      by eapply Forall_forall in Hok.
  - done.
  - exists k. split; [done|]. apply py_index_nonneg. lia.
Qed.

Lemma copy_files_respects_pins_witness :
  ∃ r, copy_files ([sample "a.bin" true None]
                     ++ sample "b.bin" true (Some 0) :: []) false = Returned r
       ∧ table r !! Z.to_nat 0 = Some (Some (sample "b.bin" true (Some 0))).
Proof.
  apply (copy_files_respects_pins false
           [sample "a.bin" true None] (sample "b.bin" true (Some 0)) [] 0).
  - repeat constructor; simpl; lia.
  - discriminate.
  - lia.
  - reflexivity.
  - reflexivity.
  - simpl. lia.
  - intros x Hx _. apply list_elem_of_singleton in Hx. subst x. discriminate.
Defined.

(** A later claimant of a cell already taken is queued by the first loop
    and ends in another cell. *)
Lemma copy_files_demotes l1 X l2 Y l3 v st r c :
  place_loop v (l1 ++ X :: l2 ++ Y :: l3) alloc_init = Returned st →
  copy_files (l1 ++ X :: l2 ++ Y :: l3) v = Returned r →
  (length (filter is_active (l1 ++ X :: l2)) < page_size)%nat →
  (∀ x, x ∈ l1 → is_active x → ¬ claims x c) →
  is_active X → claims X c → is_active Y → claims Y c →
  patch_order st !! c = Some (Some X)
  ∧ Y ∈ unordered_patches st
  ∧ ∃ c', c' ≠ c ∧ table r !! c' = Some (Some Y).
Proof.
  intros Hst Hr Hn Hno HX HXc HY HYc.
  assert (c < 64)%nat as Hc by (by destruct HXc as (p & _ & ?%py_index_lt)).
  pose proof Hst as Hst'.
  replace (l1 ++ X :: l2 ++ Y :: l3) with ((l1 ++ X :: l2) ++ Y :: l3)
    in Hst' by (by rewrite <-(assoc_L (++))).
  rewrite place_loop_app in Hst'
    by (change (count alloc_init) with 1%nat; lia).
  destruct (place_loop v (l1 ++ X :: l2) alloc_init) as [st1| |] eqn:H1;
    [|done..]. cbn [obind] in Hst'.
  destruct (place_loop_inv _ _ _ _ H1) as (Hlen1 & Hcnt1 & _).
  rewrite alloc_init_length in Hlen1.
  change (count alloc_init) with 1%nat in Hcnt1. rewrite length_take in Hcnt1.
  assert (patch_order st1 !! c = Some (Some X)) as HcX.
  { eapply place_loop_pins; [exact H1|done| | |done..].
    - rewrite filter_app in Hn. rewrite length_app in Hn.
      change (count alloc_init) with 1%nat. lia.
    - by apply lookup_replicate_2. }
  assert (Y ∈ unordered_patches st) as HYq.
  { eapply place_loop_demote_head; [exact Hst'|done|lia|done..]. }
  split_and!; [by eapply place_loop_keeps|done|].
  destruct (copy_files_queue_placed _ _ _ _ _ Hst Hr HYq) as (c' & Hc' & ?).
  exists c'. split; [|done]. intros ->.
  apply (place_loop_keeps _ _ _ _ _ _ Hst') in HcX. congruence.
Qed.

(** C2. First claim wins: when several active entries (all among the first
    64 active ones) prefer the same slot, the earliest in input order holds
    that slot; every later claimant is put on the queue of unplaced entries
    by the first loop and ends in another cell.  For the input [X, Y] with
    both preferring slot 5, [X] holds cell 5 and [Y] cell 0, the earliest
    open cell. *)
Theorem copy_files_first_claim_wins v :
  (∀ l1 X l2 Y l3 k,
     Forall slot_ok (l1 ++ X :: l2 ++ Y :: l3) →
     (v = true → Forall is_active (l1 ++ X :: l2 ++ Y :: l3)) →
     is_active X → preferred_index X = Some k →
     is_active Y → preferred_index Y = Some k →
     (∀ x, x ∈ l1 → is_active x → preferred_index x ≠ Some k) →
     (length (filter is_active (l1 ++ X :: l2)) < 64)%nat →
     ∃ st r,
       place_loop v (l1 ++ X :: l2 ++ Y :: l3) alloc_init = Returned st
       ∧ copy_files (l1 ++ X :: l2 ++ Y :: l3) v = Returned r
       ∧ table r !! Z.to_nat k = Some (Some X)
       ∧ Y ∈ unordered_patches st
       ∧ ∃ c, c ≠ Z.to_nat k ∧ table r !! c = Some (Some Y))
  ∧ (∀ X Y,
       is_active X → preferred_index X = Some 5 →
       is_active Y → preferred_index Y = Some 5 →
       ∃ r, copy_files [X; Y] v = Returned r
            ∧ table r =
                <[5%nat := Some X]> (<[0%nat := Some Y]> (replicate 64 None))).
Proof.
  split.
  - intros l1 X l2 Y l3 k Hok Hv HX HXk HY HYk Hno Hn.
    set (l := l1 ++ X :: l2 ++ Y :: l3) in *.
    assert (Forall index_ok l) as Hidx
      by (eapply Forall_impl; [done|apply slot_ok_index_ok]).
    destruct (place_loop_returns v l alloc_init) as [st Hst]; [done..|].
    destruct (copy_files_returned _ _ _ Hst) as (r & Hr & Ht & _).
    assert (slot_ok X) as HXok.
    { apply Forall_app in Hok as [_ Hok]. by apply Forall_cons in Hok as [? _]. }
    assert (0 ≤ k < 64) as Hk by (unfold slot_ok in HXok; by rewrite HXk in HXok).
    assert (∀ Z0, preferred_index Z0 = Some k → claims Z0 (Z.to_nat k)) as Hcl.
    { intros Z0 HZ. exists k. split; [done|]. by apply py_index_nonneg. }
    destruct (copy_files_demotes l1 X l2 Y l3 v st r (Z.to_nat k))
      as (HkX & HYq & HYc);
      [exact Hst|exact Hr|exact Hn| |exact HX|by apply Hcl|exact HY
      |by apply Hcl|].
    + intros x Hx Ha Hc. apply (Hno x Hx Ha). apply claims_slot_ok in Hc.
      * rewrite Hc. f_equal. lia.
      * apply Forall_app in Hok as [Hok _]. by eapply Forall_forall in Hok.
    + exists st, r. split_and!; [done..| |done|done].
      rewrite Ht. by apply fifo_fill_keeps.
  - intros [fpX fnX nX aX pX] [fpY fnY nY aY pY]. unfold is_active. simpl.
    intros -> -> -> ->. destruct v; (eexists; split; reflexivity).
Qed.

Lemma copy_files_first_claim_wins_witness :
  let X := sample "x.bin" true (Some 5) in
  let Y := sample "y.bin" true (Some 5) in
  ∃ st r,
    place_loop false ([] ++ X :: [] ++ Y :: []) alloc_init = Returned st
    ∧ copy_files ([] ++ X :: [] ++ Y :: []) false = Returned r
    ∧ table r !! Z.to_nat 5 = Some (Some X)
    ∧ Y ∈ unordered_patches st
    ∧ ∃ c, c ≠ Z.to_nat 5 ∧ table r !! c = Some (Some Y).
Proof.
  intros X Y.
  apply (proj1 (copy_files_first_claim_wins false) [] X [] Y [] 5).
  - repeat constructor; simpl; lia.
  - discriminate.
  - reflexivity.
  - reflexivity.
  - reflexivity.
  - reflexivity.
  - intros x Hx. by apply elem_of_nil in Hx.
  - simpl. lia.
Defined.

(** C3. Capacity: whatever the input, at most 64 entries are copied, and a
    run that returns has placed exactly the first 64 active entries of the
    input, none left on the queue.  With 65 active entries the first 64 are
    placed, the 65th is not, and the limit warning is printed. *)
Theorem copy_files_capacity v l :
  (length (placed (copy_files l v)) ≤ 64)%nat
  ∧ (∀ r, copy_files l v = Returned r →
       filled (table r) ≡ₚ take 64 (filter is_active l)
       ∧ (copied r).*2 = filled (table r)
       ∧ leftover r = [])
  ∧ (length l = 65%nat → Forall is_active l → Forall slot_ok l →
     ∃ r, copy_files l v = Returned r
          ∧ filled (table r) ≡ₚ take 64 l
          ∧ length (filled (table r)) = 64%nat
          ∧ l = take 64 l ++ drop 64 l ∧ length (drop 64 l) = 1%nat
          ∧ HitPatchLimit 64 ∈ printed r).
Proof.
  split_and!.
  - destruct (copy_files l v) as [r| |] eqn:Hr; simpl; [|lia..].
    destruct (copy_files_placed _ _ _ Hr) as (_ & _ & -> & ->).
    rewrite length_take. unfold page_size. lia.
  - intros r Hr. by destruct (copy_files_placed _ _ _ Hr) as (_ & ? & ? & ?).
  - intros Hlen Hact Hok.
    assert (filter is_active l = l) as Hfl.
    { clear Hlen Hok. induction Hact as [|x l Hx _ IH]; [done|].
      by rewrite filter_cons_True, IH. }
    destruct (place_loop_returns v l alloc_init) as [st Hst]; [done| |done|].
    { eapply Forall_impl; [done|apply slot_ok_index_ok]. }
    destruct (copy_files_returned _ _ _ Hst) as (r & Hr & _ & _ & _ & _ & Hout).
    destruct (copy_files_placed _ _ _ Hr) as (_ & _ & _ & Hperm).
    rewrite Hfl in Hperm. exists r. split_and!; [done|done| | | |].
    + rewrite Hperm, length_take. unfold page_size. lia.
    + by rewrite take_drop.
    + rewrite length_drop. lia.
    + apply Hout. eapply place_loop_warns; [done|..].
      * change (count alloc_init) with 1%nat. lia.
      * rewrite Hfl, Hlen. change (count alloc_init) with 1%nat.
        unfold page_size. lia.
Qed.

Lemma copy_files_capacity_witness :
  let l := (λ i : nat, sample (pretty i) true None) <$> seq 0 65 in
  ∃ r, copy_files l false = Returned r
       ∧ filled (table r) ≡ₚ take 64 l
       ∧ length (filled (table r)) = 64%nat
       ∧ l = take 64 l ++ drop 64 l ∧ length (drop 64 l) = 1%nat
       ∧ HitPatchLimit 64 ∈ printed r.
Proof.
  intros l. apply (proj2 (proj2 (copy_files_capacity false l))).
  - reflexivity.
  - apply Forall_fmap, Forall_true. intros i. reflexivity.
  - apply Forall_fmap, Forall_true. intros i. exact I.
Defined.

(** C4. FIFO fill: after the pinned placements the second loop visits the
    cells in ascending order and hands the queue, which lists the unpinned
    active entries in input order, to the empty cells one by one: it
    computes [fifo_fill], pinned cells keep their entry, and an empty cell
    receives the queued entry whose rank is the number of empty cells
    before it (none once the queue is used up).  With an empty queue the
    loop stops at once.  For [A], [B] without preference and [C] preferring
    slot 60, [C] holds cell 60 and [A], [B] hold cells 0 and 1. *)
Theorem copy_files_fifo_fill v :
  (∀ l st, place_loop v l alloc_init = Returned st →
     ∃ r, copy_files l v = Returned r
       ∧ unordered_patches st `sublist_of` l
       ∧ (table r, leftover r) =
           fifo_fill (patch_order st) (unordered_patches st)
       ∧ (∀ c x, patch_order st !! c = Some (Some x) →
            table r !! c = Some (Some x))
       ∧ (∀ c, patch_order st !! c = Some None →
            table r !! c =
              Some (unordered_patches st !! free (take c (patch_order st)))))
  ∧ (∀ cells order, fill_loop cells order [] = Returned (order, []))
  ∧ (∀ A B C,
       is_active A → preferred_index A = None →
       is_active B → preferred_index B = None →
       is_active C → preferred_index C = Some 60 →
       ∃ r, copy_files [A; B; C] v = Returned r
            ∧ table r =
                <[60%nat := Some C]>
                  (<[1%nat := Some B]>
                     (<[0%nat := Some A]> (replicate 64 None)))).
Proof.
  split_and!.
  - intros l st Hst.
    destruct (copy_files_returned _ _ _ Hst) as (r & Hr & Ht & Hl & _).
    exists r. split_and!; [done| | | |].
    + destruct (place_loop_queue_order _ _ _ _ Hst) as (q & -> & Hq).
      simpl. etrans; [done|]. apply sublist_filter.
    + rewrite Ht, Hl. by destruct (fifo_fill _ _).
    + intros c x Hc. rewrite Ht. by apply fifo_fill_keeps.
    + intros c Hc. rewrite Ht. by apply fifo_fill_open.
  - by intros [|i cells] order.
  - intros [fpA fnA nA aA pA] [fpB fnB nB aB pB] [fpC fnC nC aC pC].
    unfold is_active. simpl. intros -> -> -> -> -> ->.
    destruct v; (eexists; split; reflexivity).
Qed.

Lemma copy_files_fifo_fill_witness :
  let A := sample "a.bin" true None in
  let B := sample "b.bin" true None in
  let C := sample "c.bin" true (Some 60) in
  let st := mkAlloc (<[60%nat := Some C]> (replicate 64 None)) [A; B] 4 [] in
  (∃ r, copy_files [A; B; C] false = Returned r
     ∧ unordered_patches st `sublist_of` [A; B; C]
     ∧ (table r, leftover r) =
         fifo_fill (patch_order st) (unordered_patches st)
     ∧ (∀ c x, patch_order st !! c = Some (Some x) →
          table r !! c = Some (Some x))
     ∧ (∀ c, patch_order st !! c = Some None →
          table r !! c =
            Some (unordered_patches st !! free (take c (patch_order st)))))
  ∧ ∃ r, copy_files [A; B; C] false = Returned r
         ∧ table r =
             <[60%nat := Some C]>
               (<[1%nat := Some B]> (<[0%nat := Some A]> (replicate 64 None))).
Proof.
  intros A B C st. split.
  - apply (proj1 (copy_files_fifo_fill false) [A; B; C] st). reflexivity.
  - apply (proj2 (proj2 (copy_files_fifo_fill false)) A B C); reflexivity.
Defined.

(** C10. No fabrication, no duplication: for entries with in-range
    preferences, every filled cell of the returned table holds an active
    entry of the input, the filled cells taken together are a sub-multiset
    of the input, and when the input has no repeated entry no entry sits in
    two cells. *)
Theorem copy_files_no_fabrication v l :
  Forall slot_ok l → (v = true → Forall is_active l) →
  ∃ r, copy_files l v = Returned r
    ∧ (∀ c x, table r !! c = Some (Some x) → is_active x ∧ x ∈ l)
    ∧ filled (table r) ⊆+ l
    ∧ (NoDup l → ∀ i j x,
         table r !! i = Some (Some x) → table r !! j = Some (Some x) → i = j).
Proof.
  intros Hok Hv. destruct (copy_files_returns l v) as [r Hr]; [|done|].
  { eapply Forall_impl; [done|apply slot_ok_index_ok]. }
  destruct (copy_files_placed _ _ _ Hr) as (_ & _ & _ & Hperm).
  assert (filled (table r) ⊆+ l) as Hsub.
  { rewrite Hperm. apply sublist_submseteq.
    etrans; [apply sublist_take|apply sublist_filter]. }
  exists r. split_and!; [done| |done|].
  - intros c x Hc.
    assert (x ∈ take page_size (filter is_active l)) as Hx
      by (rewrite <-Hperm; apply filled_lookup; eauto).
    apply elem_of_take in Hx as (i & Hx & _).
    apply list_elem_of_lookup_2, list_elem_of_filter in Hx. done.
  - intros Hnd i j x. apply filled_NoDup_cells. rewrite Hperm.
    eapply sublist_NoDup; [done|].
    etrans; [apply sublist_take|apply sublist_filter].
Qed.

Lemma copy_files_no_fabrication_witness :
  let l := [sample "a.bin" true None; sample "b.bin" false (Some 3);
            sample "c.bin" true (Some 3)] in
  ∃ r, copy_files l false = Returned r
    ∧ (∀ c x, table r !! c = Some (Some x) → is_active x ∧ x ∈ l)
    ∧ filled (table r) ⊆+ l
    ∧ (NoDup l → ∀ i j x,
         table r !! i = Some (Some x) → table r !! j = Some (Some x) → i = j).
Proof.
  intros l. apply (copy_files_no_fabrication false l).
  - repeat constructor; simpl; lia.
  - discriminate.
Defined.

(** ** Preferences outside the table *)

(** An active entry met below the limit whose preference Python rejects as
    an index makes the loop raise. *)
Lemma place_loop_out_of_range v l1 E l2 st p :
  length (patch_order st) = 64%nat →
  (count st + length (filter is_active l1) ≤ page_size)%nat →
  is_active E → preferred_index E = Some p → ¬ (-64 ≤ p < 64) →
  ∃ e, place_loop v (l1 ++ E :: l2) st = Raised e.
Proof.
  intros Hlen Hn HE Hp Hr. rewrite place_loop_app by done.
  destruct (place_loop v l1 st) as [st1|e|s] eqn:H1; cbn [obind].
  - destruct (place_loop_inv _ _ _ _ H1) as (Hlen1 & Hcnt1 & _).
    rewrite length_take in Hcnt1.
    rewrite place_loop_active by (done || lia).
    rewrite Hp, Hlen1, Hlen, py_index_None by (simpl; lia). eauto.
  - eauto.
  - by apply place_loop_not_exited in H1.
Qed.

Lemma py_slot_ok_index_ok x : py_slot_ok x ↔ index_ok x.
Proof.
  unfold py_slot_ok, index_ok. destruct (preferred_index x) as [p|]; [|done].
  split.
  - intros Hp q [= <-]. destruct (decide (0 ≤ p)).
    + rewrite py_index_nonneg by lia. eauto.
    + rewrite (py_index_negative 64) by lia. eauto.
  - intros H. destruct (H p eq_refl) as [c Hc].
    destruct (decide (-64 ≤ p < 64)) as [|Hn]; [done|].
    by rewrite py_index_None in Hc.
Qed.

(** With [verbose] off the first loop returns when the active entries it
    looks at all have a preference Python accepts, and raises [IndexError]
    at the first one that has not. *)
Lemma place_loop_quiet_outcome l st :
  length (patch_order st) = 64%nat →
  match place_loop false l st with
  | Returned _ =>
    Forall py_slot_ok (take (S page_size - count st) (filter is_active l))
  | Raised e =>
    e = IndexError
    ∧ Exists (λ x, ¬ py_slot_ok x)
        (take (S page_size - count st) (filter is_active l))
  | Exited _ => False
  end.
Proof.
  revert st. induction l as [|x l IH]; intros st Hlen.
  { simpl. rewrite filter_nil, take_nil. constructor. }
  destruct (decide (page_size < count st)%nat) as [Hc|Hc].
  { rewrite place_loop_full by done.
    replace (S page_size - count st)%nat with 0%nat by lia. constructor. }
  destruct (decide (is_active x)) as [Hx|Hx].
  - rewrite place_loop_active, filter_cons_True by done.
    replace (S page_size - count st)%nat
      with (S (page_size - count st)) by lia.
    rewrite firstn_cons.
    assert (∀ st1, count st1 = S (count st) →
              length (patch_order st1) = 64%nat →
              py_slot_ok x →
              match place_loop false l st1 with
              | Returned _ =>
                Forall py_slot_ok
                  (x :: take (page_size - count st) (filter is_active l))
              | Raised e =>
                e = IndexError
                ∧ Exists (λ x, ¬ py_slot_ok x)
                    (x :: take (page_size - count st) (filter is_active l))
              | Exited _ => False
              end) as Hstep.
    { intros st1 Hc1 Hl1 Hok. specialize (IH st1 Hl1). rewrite Hc1 in IH.
      replace (S page_size - S (count st))%nat
        with (page_size - count st)%nat in IH by lia.
      destruct (place_loop false l st1) as [?|e|?]; [|destruct IH|done].
      - by apply Forall_cons.
      - split; [done|]. by apply Exists_cons_tl. }
    destruct (preferred_index x) as [p|] eqn:Hp.
    + rewrite Hlen.
      destruct (py_index 64 p) as [c|] eqn:Hidx.
      * assert (py_slot_ok x) as Hok.
        { apply py_slot_ok_index_ok. intros q Hq.
          rewrite Hp in Hq. injection Hq as <-. by rewrite Hidx. }
        destruct (patch_order st !! c) as [[?|]|]; apply Hstep; simpl;
          by rewrite ?length_insert.
      * split; [done|]. apply Exists_cons_hd. intros Hok.
        apply py_slot_ok_index_ok in Hok. destruct (Hok p Hp) as [c Hc'].
        congruence.
    + apply Hstep; [done..|]. unfold py_slot_ok. by rewrite Hp.
  - rewrite place_loop_inactive, filter_cons_False by done. by apply IH.
Qed.

(** With [verbose] on the first loop returns when the entries it looks at
    are all active with a preference Python accepts, and raises at the first
    one that is not. *)
Lemma place_loop_verbose_outcome l st :
  length (patch_order st) = 64%nat →
  match place_loop true l st with
  | Returned _ =>
    Forall (λ x, is_active x ∧ py_slot_ok x) (take (S page_size - count st) l)
  | Raised e =>
    Exists (λ x, ¬ (is_active x ∧ py_slot_ok x))
      (take (S page_size - count st) l)
  | Exited _ => False
  end.
Proof.
  revert st. induction l as [|x l IH]; intros st Hlen.
  { simpl. rewrite take_nil. constructor. }
  destruct (decide (page_size < count st)%nat) as [Hc|Hc].
  { rewrite place_loop_full by done.
    replace (S page_size - count st)%nat with 0%nat by lia. constructor. }
  replace (S page_size - count st)%nat
    with (S (page_size - count st)) by lia.
  rewrite firstn_cons.
  destruct (decide (is_active x)) as [Hx|Hx].
  - rewrite place_loop_active by done.
    assert (∀ st1, count st1 = S (count st) →
              length (patch_order st1) = 64%nat →
              py_slot_ok x →
              match place_loop true l st1 with
              | Returned _ =>
                Forall (λ x, is_active x ∧ py_slot_ok x)
                  (x :: take (page_size - count st) l)
              | Raised e =>
                Exists (λ x, ¬ (is_active x ∧ py_slot_ok x))
                  (x :: take (page_size - count st) l)
              | Exited _ => False
              end) as Hstep.
    { intros st1 Hc1 Hl1 Hok. specialize (IH st1 Hl1). rewrite Hc1 in IH.
      replace (S page_size - S (count st))%nat
        with (page_size - count st)%nat in IH by lia.
      destruct (place_loop true l st1) as [?|e|?]; [| |done].
      - by apply Forall_cons.
      - by apply Exists_cons_tl. }
    destruct (preferred_index x) as [p|] eqn:Hp.
    + rewrite Hlen.
      destruct (py_index 64 p) as [c|] eqn:Hidx.
      * assert (py_slot_ok x) as Hok.
        { apply py_slot_ok_index_ok. intros q Hq.
          rewrite Hp in Hq. injection Hq as <-. by rewrite Hidx. }
        destruct (patch_order st !! c) as [[?|]|]; apply Hstep; simpl;
          by rewrite ?length_insert.
      * apply Exists_cons_hd. intros [_ Hok].
        apply py_slot_ok_index_ok in Hok. destruct (Hok p Hp) as [c Hc'].
        congruence.
    + apply Hstep; [done..|]. unfold py_slot_ok. by rewrite Hp.
  - rewrite place_loop_inactive by done. apply Exists_cons_hd. by intros [? _].
Qed.

Lemma Forall_Exists_not {A} (P : A → Prop) (l : list A) :
  Forall P l → Exists (λ x, ¬ P x) l → False.
Proof.
  intros HF HE. apply Exists_exists in HE as (x & Hx & Hn).
  eapply Forall_forall in HF; [|done]. done.
Qed.

(** Once 64 active entries are counted the loop looks at nothing more: what
    follows them changes at most the lines printed. *)
Lemma place_loop_beyond v l l' st :
  (page_size < count st + length (filter is_active l))%nat →
  same_outcome (place_loop v (l ++ l') st) (place_loop v l st).
Proof.
  revert st. induction l as [|x l IH]; intros st Hc.
  { rewrite filter_nil in Hc. simpl in Hc. rewrite app_nil_l.
    destruct l' as [|y l']; [by simpl|].
    rewrite place_loop_full by lia. by simpl. }
  rewrite <-app_comm_cons.
  destruct (decide (page_size < count st)%nat) as [Hf|Hf].
  { rewrite !place_loop_full by done. by simpl. }
  destruct (decide (is_active x)) as [Hx|Hx].
  - rewrite filter_cons_True in Hc by done. simpl in Hc.
    rewrite !place_loop_active by done.
    repeat case_match; try done; apply IH; simpl; lia.
  - rewrite filter_cons_False in Hc by done.
    rewrite !place_loop_inactive by done.
    destruct v; [done|]. by apply IH.
Qed.

(** Two lists on which the first loop decides the same give the same table
    and the same copies. *)
Lemma same_outcome_placement v l1 l2 :
  same_outcome (place_loop v l1 alloc_init) (place_loop v l2 alloc_init) →
  placement (copy_files l1 v) = placement (copy_files l2 v).
Proof.
  intros H. unfold copy_files.
  destruct (place_loop v l1 alloc_init) as [a|e|s],
    (place_loop v l2 alloc_init) as [b|e'|s']; simpl in H;
    try done; [|by subst..].
  destruct H as (Ho & Hu & _). cbn [obind]. rewrite Ho, Hu.
  destruct (fill_loop _ _ _) as [f| |]; [|done..]. cbn [obind].
  by destruct (copy_loop v _ _) as [k| |].
Qed.

Lemma take_filter_active n (l : list PatchFile) :
  Forall is_active (take n l) → take n (filter is_active l) = take n l.
Proof.
  revert n. induction l as [|x l IH]; intros [|n] H; try done.
  simpl in H. apply Forall_cons in H as [Hx H].
  rewrite filter_cons_True by done. simpl. by rewrite IH.
Qed.

(** The first loop returns when the entries it looks at have preferences
    Python accepts and, under [verbose], none of them is inactive. *)
Lemma place_loop_returns_first v l :
  Forall py_slot_ok (take 64 (filter is_active l)) →
  (v = true → Forall is_active (take 64 l)) →
  ∃ st, place_loop v l alloc_init = Returned st.
Proof.
  intros Hok Hv. destruct v.
  - pose proof (place_loop_verbose_outcome l alloc_init eq_refl) as H.
    change (S page_size - count alloc_init)%nat with 64%nat in H.
    destruct (place_loop true l alloc_init) as [st|e|s]; [eauto| |done].
    specialize (Hv eq_refl). rewrite take_filter_active in Hok by done.
    assert (Forall (λ x, is_active x ∧ py_slot_ok x) (take 64 l)) as HF
      by (by apply Forall_and).
    destruct (Forall_Exists_not _ _ HF H).
  - pose proof (place_loop_quiet_outcome l alloc_init eq_refl) as H.
    change (S page_size - count alloc_init)%nat with 64%nat in H.
    destruct (place_loop false l alloc_init) as [st|e|s]; [eauto| |done].
    destruct H as [_ H]. destruct (Forall_Exists_not _ _ Hok H).
Qed.

(** C6, as the code has it.  (1) An active entry among the first 64 active
    ones whose [preferred_index] is below -64 or above 63 makes [copy_files]
    raise, whatever else the list holds and before any file is copied (the
    file system is left as it was); with [verbose] off the exception is
    [IndexError].  (2) A [preferred_index] from -64 to -1 is not rejected:
    Python counts it from the end of the table, so whenever the allocation
    completes, such an entry among the first 64 active ones, when no earlier
    active entry addresses the same cell, is held by cell
    [64 + preferred_index]; and the allocation does complete when each of
    the first 64 active entries has no preference or one from -64 to 63
    and, under [verbose], none of the first 64 entries is inactive.
    (3) Entries after the 64th active one are never examined: whatever is
    appended to a list that holds 64 active entries, the allocation raises
    or completes as on the list itself, with the same table and the same
    copies. *)
Theorem copy_files_out_of_range v :
  (∀ l1 E l2 p,
     is_active E → preferred_index E = Some p →
     (length (filter is_active l1) < 64)%nat →
     p < -64 ∨ 64 ≤ p →
     ∃ e, copy_files (l1 ++ E :: l2) v = Raised e
       ∧ (v = false → e = IndexError)
       ∧ placed (copy_files (l1 ++ E :: l2) v) = []
       ∧ ∀ FS (copyfile : copier FS) dest_dir σ,
           copy_files_on copyfile (l1 ++ E :: l2) dest_dir v σ
             = (σ, Raised e))
  ∧ (∀ l1 E l2 p,
       is_active E → preferred_index E = Some p →
       (length (filter is_active l1) < 64)%nat →
       -64 ≤ p < 0 →
       (∀ x, x ∈ l1 → is_active x → ¬ claims x (Z.to_nat (64 + p))) →
       (∀ r, copy_files (l1 ++ E :: l2) v = Returned r →
          table r !! Z.to_nat (64 + p) = Some (Some E))
       ∧ (Forall py_slot_ok (take 64 (filter is_active (l1 ++ E :: l2))) →
          (v = true → Forall is_active (take 64 (l1 ++ E :: l2))) →
          ∃ r, copy_files (l1 ++ E :: l2) v = Returned r
               ∧ table r !! Z.to_nat (64 + p) = Some (Some E)))
  ∧ (∀ l l',
       (64 ≤ length (filter is_active l))%nat →
       placement (copy_files (l ++ l') v) = placement (copy_files l v)).
Proof.
  split_and!.
  - intros l1 E l2 p HE Hp Hn Hr.
    destruct (place_loop_out_of_range v l1 E l2 alloc_init p) as [e He];
      [done| |done|done|lia|].
    { change (count alloc_init) with 1%nat. unfold page_size. lia. }
    assert (copy_files (l1 ++ E :: l2) v = Raised e) as Hraise.
    { unfold copy_files. by rewrite He. }
    exists e. rewrite Hraise. split_and!; [done| |done|].
    + intros ->.
      pose proof (place_loop_quiet_outcome (l1 ++ E :: l2) alloc_init eq_refl)
        as H.
      rewrite He in H. by destruct H as [-> _].
    + intros FS copyfile dest_dir σ. unfold copy_files_on. by rewrite He.
  - intros l1 E l2 p HE Hp Hn Hr Hno.
    assert (∀ r, copy_files (l1 ++ E :: l2) v = Returned r →
              table r !! Z.to_nat (64 + p) = Some (Some E)) as Hpin.
    { intros r Hret. eapply copy_files_pins; [done|done|done|done|].
      exists p. split; [done|]. by apply (py_index_negative 64). }
    split; [done|]. intros Hok Hv.
    destruct (place_loop_returns_first v (l1 ++ E :: l2)) as [st Hst];
      [done..|].
    destruct (copy_files_returned _ _ _ Hst) as (r & Hret & _).
    exists r. split; [done|]. by apply Hpin.
  - intros l l' Hn. apply same_outcome_placement, place_loop_beyond.
    change (count alloc_init) with 1%nat. unfold page_size. lia.
Qed.

Lemma copy_files_out_of_range_witness :
  let a := sample "a.bin" true (Some 64) in
  let b := sample "b.bin" true (Some (-64)) in
  let l := (λ i : nat, sample (pretty i) true None) <$> seq 0 64 in
  (∃ e, copy_files ([] ++ a :: []) false = Raised e
     ∧ (false = false → e = IndexError)
     ∧ placed (copy_files ([] ++ a :: []) false) = []
     ∧ ∀ FS (copyfile : copier FS) dest_dir σ,
         copy_files_on copyfile ([] ++ a :: []) dest_dir false σ
           = (σ, Raised e))
  ∧ (∃ r, copy_files ([] ++ b :: []) false = Returned r
          ∧ table r !! Z.to_nat (64 + -64) = Some (Some b))
  ∧ placement (copy_files (l ++ [sample "late.bin" true (Some 100)]) false)
      = placement (copy_files l false).
Proof.
  intros a b l. split; [|split].
  - apply (proj1 (copy_files_out_of_range false) [] a [] 64
             eq_refl eq_refl ltac:(simpl; lia)).
    right. lia.
  - apply (proj1 (proj2 (copy_files_out_of_range false)) [] b [] (-64)
             eq_refl eq_refl ltac:(simpl; lia) ltac:(lia)).
    + intros x Hx. by apply elem_of_nil in Hx.
    + cbn. constructor; [unfold py_slot_ok; simpl; lia|constructor].
    + discriminate.
  - apply (proj2 (proj2 (copy_files_out_of_range false)) l).
    by vm_compute.
Defined.

(** C6 as stated fails: an active entry with [preferred_index = -1] raises
    nothing and is silently given cell 63; and an active entry with
    [preferred_index = 100] behind 64 active entries is never looked at. *)
Lemma copy_files_negative_index_accepted :
  (∃ r, copy_files [sample "a.bin" true (Some (-1))] false = Returned r
        ∧ table r !! 63%nat = Some (Some (sample "a.bin" true (Some (-1))))
        ∧ copied r = [(63%nat, sample "a.bin" true (Some (-1)))]
        ∧ printed r = [])
  ∧ ∃ r, copy_files
           (((λ i : nat, sample (pretty i) true None) <$> seq 0 64)
              ++ [sample "late.bin" true (Some 100)]) false = Returned r
         ∧ printed r = [HitPatchLimit 64].
Proof.
  split.
  - eexists. split_and!; reflexivity.
  - eexists. split; [by vm_compute|reflexivity].
Qed.

(** ** Skipping inactive entries *)

(** Without [verbose] an inactive entry met below the limit changes
    nothing: the loop goes on from the same state. *)
Lemma place_loop_skips x l st :
  ¬ is_active x → (count st ≤ page_size)%nat →
  place_loop false (x :: l) st = place_loop false l st.
Proof. intros Hx Hc. by rewrite place_loop_inactive by (done || lia). Qed.

(** With [verbose] the first inactive entry met below the limit raises
    [TypeError]: the message is built from [pf['name']]. *)
Lemma place_loop_verbose_skip_raises x l st :
  ¬ is_active x → (count st ≤ page_size)%nat →
  place_loop true (x :: l) st = Raised TypeError.
Proof. intros Hx Hc. by rewrite place_loop_inactive by (done || lia). Qed.

(** C7 fails under [verbose]: one inactive entry followed by an active one
    is skipped when [verbose] is off, and makes the call raise [TypeError]
    when it is on, so the active entry is never placed. *)
Lemma copy_files_verbose_skip_raises :
  copy_files [sample "a.bin" false None; sample "b.bin" true None] true
    = Raised TypeError
  ∧ ∃ r, copy_files [sample "a.bin" false None; sample "b.bin" true None] false
           = Returned r
         ∧ copied r = [(0%nat, sample "b.bin" true None)].
Proof. split; [reflexivity|]. eexists. split; reflexivity. Qed.

(** * The preference merger *)

(** The dictionary built from the saved records maps a path to the last
    saved record that has it. *)
Lemma override_paths_lookup saved p :
  override_paths saved !! p = last (with_path p saved).
Proof.
  unfold override_paths, with_path.
  enough (∀ m : gmap string PatchFile,
    foldl (λ m x, <[full_path x := x]> m) m saved !! p =
      match last (filter (λ s, full_path s = p) saved) with
      | Some s => Some s
      | None => m !! p
      end) as H.
  { rewrite H, lookup_empty. by destruct (last _). }
  induction saved as [|x saved IH]; intros m; [done|].
  simpl. rewrite IH. destruct (decide (full_path x = p)) as [Hx|Hx].
  - rewrite filter_cons_True by done.
    destruct (filter _ saved) as [|y ys] eqn:Hf; simpl.
    + by rewrite Hx, lookup_insert_eq.
    + by destruct (last (y :: ys)) eqn:Hl;
        [|apply last_None in Hl].
  - rewrite filter_cons_False by done.
    destruct (last _); [done|]. by rewrite lookup_insert_ne.
Qed.

Lemma with_path_elem p saved s :
  s ∈ with_path p saved ↔ full_path s = p ∧ s ∈ saved.
Proof. unfold with_path. by rewrite list_elem_of_filter. Qed.

Lemma last_elem_of {A} (l : list A) x : last l = Some x → x ∈ l.
Proof.
  rewrite last_lookup. intros H. by apply list_elem_of_lookup_2 in H.
Qed.

(** One output record: the last saved record with the fresh record's path,
    and the fresh record when there is none. *)
Lemma merge_patch_files_lookup fresh saved i f :
  fresh !! i = Some f →
  merge_patch_files fresh saved !! i =
    Some (default f (last (with_path (full_path f) saved))).
Proof.
  intros Hf. unfold merge_patch_files.
  rewrite list_lookup_fmap, Hf. simpl. by rewrite override_paths_lookup.
Qed.

(** With one saved record per path, the saved record of a path is the last
    with that path. *)
Lemma with_path_unique saved s :
  NoDup (full_path <$> saved) → s ∈ saved →
  last (with_path (full_path s) saved) = Some s.
Proof.
  intros Hnd Hs.
  destruct (last (with_path (full_path s) saved)) as [o|] eqn:Hl.
  - apply last_elem_of, with_path_elem in Hl as [Hp Ho].
    apply list_elem_of_lookup in Ho as [i Hi].
    apply list_elem_of_lookup in Hs as [j Hj].
    assert (i = j) as ->; [|congruence].
    eapply NoDup_lookup; [done|..]; rewrite list_lookup_fmap.
    + by rewrite Hi.
    + rewrite Hj. simpl. by rewrite Hp.
  - apply last_None in Hl.
    assert (s ∈ with_path (full_path s) saved) as Hin
      by (by apply with_path_elem).
    rewrite Hl in Hin. by apply elem_of_nil in Hin.
Qed.

(** C5. Merge is a pure override: the result has the length and order of
    [fresh]; its i-th record is the i-th fresh record when no saved record
    has that record's [full_path], and otherwise a saved record with that
    [full_path] (the last one listed, which is the only one when saved paths
    are distinct); a saved record whose path no fresh record has does not
    appear. *)
Theorem merge_patch_files_override fresh saved :
  length (merge_patch_files fresh saved) = length fresh
  ∧ (∀ i f, fresh !! i = Some f →
       (∀ s, s ∈ saved → full_path s ≠ full_path f) →
       merge_patch_files fresh saved !! i = Some f)
  ∧ (∀ i f, fresh !! i = Some f →
       (∃ s, s ∈ saved ∧ full_path s = full_path f) →
       ∃ o, merge_patch_files fresh saved !! i = Some o
            ∧ o ∈ saved ∧ full_path o = full_path f
            ∧ last (with_path (full_path f) saved) = Some o)
  ∧ (∀ i f s, fresh !! i = Some f →
       NoDup (full_path <$> saved) → s ∈ saved →
       full_path s = full_path f →
       merge_patch_files fresh saved !! i = Some s)
  ∧ (∀ s, s ∈ saved → (∀ f, f ∈ fresh → full_path f ≠ full_path s) →
       s ∉ merge_patch_files fresh saved).
Proof.
  split_and!.
  - unfold merge_patch_files. by rewrite length_fmap.
  - intros i f Hf Hno. rewrite (merge_patch_files_lookup _ _ _ _ Hf).
    destruct (last _) as [o|] eqn:Hl; [|done].
    apply last_elem_of, with_path_elem in Hl as [Hp Ho].
    by destruct (Hno o Ho).
  - intros i f Hf (s & Hs & Hp). rewrite (merge_patch_files_lookup _ _ _ _ Hf).
    destruct (last _) as [o|] eqn:Hl.
    + pose proof Hl as Hl'. apply last_elem_of, with_path_elem in Hl' as [? ?].
      by exists o.
    + apply last_None in Hl.
      assert (s ∈ with_path (full_path f) saved) as Hin
        by (by apply with_path_elem).
      rewrite Hl in Hin. by apply elem_of_nil in Hin.
  - intros i f s Hf Hnd Hs Hp. rewrite (merge_patch_files_lookup _ _ _ _ Hf).
    by rewrite <-Hp, with_path_unique.
  - intros s Hs Hno Hin. apply list_elem_of_lookup in Hin as [i Hi].
    assert (is_Some (fresh !! i)) as [f Hf].
    { apply lookup_lt_is_Some. apply lookup_lt_Some in Hi.
      unfold merge_patch_files in Hi. by rewrite length_fmap in Hi. }
    rewrite (merge_patch_files_lookup _ _ _ _ Hf) in Hi. injection Hi as Hi.
    apply (Hno f); [by eapply list_elem_of_lookup_2|].
    destruct (last _) as [o|] eqn:Hl; simpl in Hi; subst; [|done].
    by apply last_elem_of, with_path_elem in Hl as [? _].
Qed.

Lemma merge_patch_files_override_witness :
  let fresh := [sample "a.bin" true None; sample "b.bin" true None] in
  let saved := [sample "b.bin" false (Some 60); sample "gone.bin" true None] in
  merge_patch_files fresh saved !! 0%nat = Some (sample "a.bin" true None)
  ∧ merge_patch_files fresh saved !! 1%nat
      = Some (sample "b.bin" false (Some 60))
  ∧ sample "gone.bin" true None ∉ merge_patch_files fresh saved.
Proof.
  intros fresh saved.
  destruct (merge_patch_files_override fresh saved)
    as (_ & Hkeep & _ & Hsaved & Hgone).
  split_and!.
  - apply Hkeep; [reflexivity|].
    intros s Hs. repeat (apply elem_of_cons in Hs as [->|Hs]); [done..|].
    by apply elem_of_nil in Hs.
  - apply (Hsaved 1%nat (sample "b.bin" true None)); [reflexivity| | |reflexivity].
    + apply (bool_decide_unpack _). by vm_compute.
    + apply list_elem_of_here.
  - apply Hgone; [apply list_elem_of_further, list_elem_of_here|].
    intros f Hf. repeat (apply elem_of_cons in Hf as [->|Hf]); [done..|].
    by apply elem_of_nil in Hf.
Defined.

(** * The reporter *)

(** What the loop of [get_preferred_index_patches] leaves under key [k]:
    nothing new under key 0, and the names that ask for [k], appended in
    list order, under any other key. *)
Lemma index_step_foldl l (m : gmap Z (list string)) k :
  foldl index_step m l !! k =
    if decide (k = 0) then m !! k
    else match requested k l with
         | [] => m !! k
         | ns => Some (default [] (m !! k) ++ ns)
         end.
Proof.
  unfold requested. revert m. induction l as [|x l IH]; intros m.
  { simpl. by case_decide. }
  simpl. rewrite IH. clear IH. unfold index_step.
  destruct (preferred_index x) as [p|] eqn:Hp; simpl.
  - case_bool_decide as Hp0; simpl.
    + destruct (decide (k = 0)) as [->|Hk].
      { by rewrite lookup_insert_ne. }
      destruct (decide (p = k)) as [->|Hpk].
      * rewrite filter_cons_True by done. rewrite fmap_cons, lookup_insert_eq.
        destruct (name <$> filter _ l) as [|n ns]; simpl; [done|].
        by rewrite <-(assoc_L (++)).
      * rewrite filter_cons_False by congruence.
        by rewrite lookup_insert_ne.
    + subst p.
      destruct (decide (k = 0)) as [->|Hk]; [done|].
      by rewrite filter_cons_False by congruence.
  - case_decide; [done|]. by rewrite filter_cons_False by congruence.
Qed.

Lemma get_preferred_index_patches_lookup l k :
  get_preferred_index_patches l !! k =
    if decide (k = 0) then None
    else match requested k l with
         | [] => None
         | ns => Some ns
         end.
Proof.
  unfold get_preferred_index_patches.
  rewrite index_step_foldl, lookup_empty. by destruct (requested k l).
Qed.

(** No list of entries puts anything under slot 0. *)
Lemma get_preferred_index_patches_zero l :
  get_preferred_index_patches l !! 0 = None.
Proof. by rewrite get_preferred_index_patches_lookup. Qed.

(** The slots are reported in ascending order. *)
Lemma sorted_keys_sorted m : Sorted Z.le (sorted_keys m).
Proof. unfold sorted_keys. apply (Sorted_merge_sort Z.le). Qed.

(** C8 fails on slot 0: an entry with [preferred_index = 0] is left out of
    the map and of the report, although [copy_files] pins it to cell 0. *)
Lemma get_preferred_index_patches_drops_slot_zero :
  let l := [sample "a.bin" true (Some 0); sample "b.bin" true (Some 7)] in
  get_preferred_index_patches l = {[ 7 := ["b.bin"] ]}
  ∧ preferred_index_strs (config_stats l) = [(false, 7, "b.bin")]
  ∧ preferred_index_patch_count (config_stats l) = 1%nat
  ∧ ∃ r, copy_files l false = Returned r
         ∧ table r !! 0%nat = Some (Some (sample "a.bin" true (Some 0))).
Proof.
  intros l. split_and!; [by vm_compute..|]. eexists. split; reflexivity.
Qed.

(** * The configuration round trip *)

Lemma config_dom pf : dom (config pf) = field_names.
Proof.
  unfold config, field_names. rewrite !dom_insert_L, dom_empty_L.
  set_solver.
Qed.

(** The constructor reads back from [config] the fields it was given. *)
Lemma PatchFile_kwargs_config pf : PatchFile_kwargs (config pf) = Some (raw pf).
Proof.
  unfold PatchFile_kwargs. rewrite bool_decide_eq_true_2
    by (by rewrite config_dom).
  reflexivity.
Qed.

Lemma load_patch_files_config patch_files :
  load_patch_files (JList (JObj ∘ config <$> patch_files))
    = Some (raw <$> patch_files).
Proof.
  simpl. apply mapM_Some. rewrite Forall2_fmap.
  apply Forall_Forall2_diag, Forall_true. intros pf.
  apply PatchFile_kwargs_config.
Qed.

Lemma typed_raw pf : typed (raw pf) = Some pf.
Proof. by destruct pf as [fp fn n a [z|]]. Qed.

Lemma mapM_typed_raw patch_files :
  mapM typed (raw <$> patch_files) = Some patch_files.
Proof.
  apply mapM_Some. rewrite Forall2_fmap_l.
  apply Forall_Forall2_diag, Forall_true. intros pf. apply typed_raw.
Qed.

Section round_trip.
Context {text : Type}.
Variable dumps : json → text.
Variable loads : text → option json.
Hypothesis loads_dumps : ∀ j, loads (dumps j) = Some j.

(** C9. Round trip: reading back the file [create_config] wrote for a
    collection of well-formed records returns that collection, record by
    record and field by field ([full_path], [file_name], [name], [active],
    [preferred_index]), in the same order. *)
Theorem config_round_trip patch_files file_name fs :
  get_patch_files_from_config loads file_name
      (create_config dumps patch_files file_name fs)
    = Returned (raw <$> patch_files)
  ∧ mapM typed (raw <$> patch_files) = Some patch_files.
Proof.
  split; [|apply mapM_typed_raw].
  unfold get_patch_files_from_config, create_config.
  rewrite lookup_insert_eq, loads_dumps. cbn [mbind option_bind].
  by rewrite load_patch_files_config.
Qed.
End round_trip.

Lemma config_round_trip_witness :
  let l := [sample "a.bin" true None; sample "b.bin" false (Some 60);
            sample "c.bin" true (Some 0)] in
  get_patch_files_from_config Some "zoia_patches.conf"
      (create_config id l "zoia_patches.conf" (∅ : gmap string json))
    = Returned (raw <$> l)
  ∧ mapM typed (raw <$> l) = Some l.
Proof.
  intros l. apply (config_round_trip id Some). reflexivity.
Defined.

(** * Further properties of the allocator *)

(** With [verbose] off the first loop takes the same decisions on a list
    and on its active entries alone. *)
Lemma place_loop_filter l o u c out1 out2 :
  same_outcome (place_loop false l (mkAlloc o u c out1))
               (place_loop false (filter is_active l) (mkAlloc o u c out2)).
Proof.
  revert o u c out1 out2. induction l as [|x l IH]; intros o u c out1 out2.
  { by simpl. }
  destruct (decide (page_size < c)%nat) as [Hc|Hc].
  { rewrite place_loop_full by done.
    destruct (filter is_active (x :: l)) as [|y ys]; [by simpl|].
    by rewrite place_loop_full. }
  destruct (decide (is_active x)) as [Hx|Hx].
  - rewrite filter_cons_True by done. rewrite !place_loop_active by done.
    simpl. repeat case_match; try done; apply IH.
  - rewrite filter_cons_False by done. rewrite place_loop_inactive by done.
    apply IH.
Qed.

(** X1. With [verbose] off, inactive entries have no influence on the slots:
    the table and the copies of a list are those of its active entries, and
    the call raises on one exactly when it raises on the other. *)
Theorem copy_files_ignores_inactive l :
  placement (copy_files l false)
    = placement (copy_files (filter is_active l) false).
Proof.
  unfold copy_files, alloc_init.
  pose proof (place_loop_filter l (replicate 64 None) [] 1 [] []) as H.
  destruct (place_loop false l _) as [a|e|s],
    (place_loop false (filter is_active l) _) as [b|e'|s']; simpl in H;
    try done; [|by subst..].
  destruct H as (Ho & Hu & _). cbn [obind]. rewrite Ho, Hu.
  destruct (fill_loop _ _ _) as [f| |]; [|done..]. cbn [obind].
  by destruct (copy_loop false _ _) as [k| |].
Qed.

(** The copy loop visits the cells in the order given. *)
Lemma copy_loop_cells v cells order r :
  copy_loop v cells order = Returned r →
  r.1.*1 `sublist_of` cells
  ∧ Forall (λ ln, ∃ i x, ln = Created i x) r.2.
Proof.
  revert r. induction cells as [|i cells IH]; intros r H; simpl in H.
  { by simplify_eq. }
  destruct (order !! i) as [[x|]|]; [| |done].
  - destruct (copy_loop v cells order) as [r'| |]; [|done..].
    cbn [obind] in H. simplify_eq. destruct (IH _ eq_refl) as [Hs Hl].
    simpl. split; [by apply sublist_skip|].
    destruct v; [|done]. apply Forall_cons. eauto.
  - destruct (IH _ H) as [Hs Hl]. split; [by apply sublist_cons|done].
Qed.

Lemma sublist_seq_sorted (l : list nat) i n :
  l `sublist_of` seq i n → StronglySorted lt l.
Proof.
  intros Hl. assert (StronglySorted lt (seq i n)) as Hs.
  { clear. revert i. induction n as [|n IH]; intros i; simpl;
      constructor; [done|].
    apply Forall_forall. intros j Hj%elem_of_seq. lia. }
  clear -Hl Hs. induction Hl as [|x l1 l2 Hl IH|x l1 l2 Hl IH].
  - constructor.
  - apply StronglySorted_inv in Hs as [Hs Hx]. constructor; [by apply IH|].
    eapply Forall_forall. intros y Hy. eapply Forall_forall in Hx; [done|].
    by eapply elem_of_sublist.
  - apply StronglySorted_inv in Hs as [Hs _]. by apply IH.
Qed.

(** A call whose first loop returns is the run built from the fill of its
    final state and the copy loop over the filled table. *)
Lemma copy_files_run l v st :
  place_loop v l alloc_init = Returned st →
  ∃ k, copy_loop v (seq 0 page_size)
         (fifo_fill (patch_order st) (unordered_patches st)).1 = Returned k
    ∧ copy_files l v =
        Returned (mkRun (fifo_fill (patch_order st) (unordered_patches st)).1
                        (fifo_fill (patch_order st) (unordered_patches st)).2
                        (stdout st ++ k.2) k.1).
Proof.
  intros H. unfold copy_files. rewrite H. cbn [obind].
  destruct (place_loop_inv _ _ _ _ H) as (Hlen & _ & _).
  rewrite alloc_init_length in Hlen.
  rewrite fill_loop_table by exact Hlen. cbn [obind].
  set (t := (fifo_fill _ _).1).
  assert (length t = page_size) as Ht
    by (unfold t; by rewrite fifo_fill_length).
  destruct (copy_loop_filled v [] t) as (c & Hc & _).
  rewrite Ht, app_nil_l in Hc. change (length []) with 0%nat in Hc.
  exists c. split; [exact Hc|]. rewrite Hc. reflexivity.
Qed.

Lemma sorted_lt_NoDup (l : list nat) : StronglySorted lt l → NoDup l.
Proof.
  induction 1 as [|x l _ IH Hx]; constructor; [|done].
  intros Hin. eapply Forall_forall in Hx; [|done]. lia.
Qed.

(** What a returning call printed besides the limit warning are [Created]
    lines. *)
Lemma copy_files_printed l v r :
  copy_files l v = Returned r →
  ∃ st, place_loop v l alloc_init = Returned st
    ∧ (copied r).*1 `sublist_of` seq 0 page_size
    ∧ (HitPatchLimit page_size ∈ printed r
       ↔ HitPatchLimit page_size ∈ stdout st).
Proof.
  intros H. destruct (copy_files_inv _ _ _ H) as [st Hst].
  exists st. split; [exact Hst|].
  destruct (copy_files_run _ _ _ Hst) as (k & Hk & Hrun).
  rewrite Hrun in H. injection H as <-. cbn [copied printed].
  destruct (copy_loop_cells _ _ _ _ Hk) as [Hs Hl]. clear Hk Hrun.
  split; [exact Hs|].
  rewrite elem_of_app. split; [|by left]. intros [?|Hin]; [done|].
  eapply Forall_forall in Hl as (i & x & Hln); [|exact Hin].
  discriminate Hln.
Qed.

Lemma copy_files_copied_cells l v r :
  copy_files l v = Returned r →
  length (copied r) = (length (filter is_active l) `min` 64)%nat
  ∧ StronglySorted lt (copied r).*1
  ∧ (∀ i x, (i, x) ∈ copied r ↔ table r !! i = Some (Some x)).
Proof.
  intros Hr. split_and!.
  - destruct (copy_files_placed _ _ _ Hr) as (_ & _ & Hc & Hperm).
    rewrite <-(length_fmap snd), Hc, Hperm, length_take.
    unfold page_size. lia.
  - destruct (copy_files_printed _ _ _ Hr) as (_ & _ & Hs & _).
    by eapply sublist_seq_sorted.
  - destruct (copy_files_inv _ _ _ Hr) as [st Hst].
    destruct (copy_files_returned _ _ _ Hst) as (r' & Hr' & _ & _ & _ & Hin & _).
    rewrite Hr in Hr'. by injection Hr' as <-.
Qed.

(** X2. The copies of a returning call: as many as there are active
    entries, up to 64; one per filled cell; made in ascending order of the
    cells, so no cell is copied twice. *)
Theorem copy_files_copies l v r :
  copy_files l v = Returned r →
  length (copied r) = (length (filter is_active l) `min` 64)%nat
  ∧ StronglySorted lt (copied r).*1
  ∧ (∀ i x, (i, x) ∈ copied r ↔ table r !! i = Some (Some x)).
Proof. apply copy_files_copied_cells. Qed.

Lemma copy_files_copies_witness :
  let l := [sample "a.bin" true None; sample "b.bin" false (Some 3);
            sample "c.bin" true (Some 3)] in
  let r := mkRun (<[3%nat := Some (sample "c.bin" true (Some 3))]>
                    (<[0%nat := Some (sample "a.bin" true None)]>
                       (replicate 64 None)))
                 [] []
                 [(0%nat, sample "a.bin" true None);
                  (3%nat, sample "c.bin" true (Some 3))] in
  length (copied r) = (length (filter is_active l) `min` 64)%nat
  ∧ StronglySorted lt (copied r).*1
  ∧ (∀ i x, (i, x) ∈ copied r ↔ table r !! i = Some (Some x)).
Proof.
  intros l r. apply (copy_files_copies l false r). reflexivity.
Defined.

(** Splitting a list one entry further: below the limit, an entry that
    comes after [n] counted ones in [x :: l] comes after the count updated
    by [x] in [l]. *)
Lemma after_limit_cons x l n :
  (n ≤ page_size)%nat →
  (∃ l1 w l2, x :: l = l1 ++ w :: l2
     ∧ (page_size < n + length (filter is_active l1))%nat)
  ↔ (∃ l1 w l2, l = l1 ++ w :: l2
       ∧ (page_size < (if decide (is_active x) then S n else n)
                        + length (filter is_active l1))%nat).
Proof.
  intros Hn. split.
  - intros (l1 & w & l2 & Hl & Hc). destruct l1 as [|z l1].
    { rewrite filter_nil in Hc. simpl in Hc. lia. }
    rewrite <-app_comm_cons in Hl. injection Hl as <- ->.
    exists l1, w, l2. split; [done|]. case_decide.
    + rewrite filter_cons_True in Hc by done. simpl in Hc. lia.
    + by rewrite filter_cons_False in Hc by done.
  - intros (l1 & w & l2 & -> & Hc). exists (x :: l1), w, l2.
    split; [done|]. case_decide.
    + rewrite filter_cons_True by done. simpl. lia.
    + by rewrite filter_cons_False by done.
Qed.

(** The limit warning is printed exactly when the first loop meets an
    entry, active or not, after it has counted 64 active ones. *)
Lemma place_loop_warning v l st st' :
  place_loop v l st = Returned st' →
  HitPatchLimit page_size ∈ stdout st'
  ↔ HitPatchLimit page_size ∈ stdout st
    ∨ ∃ l1 w l2, l = l1 ++ w :: l2
        ∧ (page_size < count st + length (filter is_active l1))%nat.
Proof.
  revert st. induction l as [|x l IH]; intros st H.
  { simpl in H. simplify_eq. split; [auto|].
    intros [?|(l1 & w & l2 & Hl & _)]; [done|]. by destruct l1. }
  destruct (decide (page_size < count st)%nat) as [Hc|Hc].
  { rewrite place_loop_full in H by done. simplify_eq. simpl.
    rewrite elem_of_app, list_elem_of_singleton. split; [|auto].
    intros _. right. exists [], x, l. split; [done|].
    rewrite filter_nil. simpl. lia. }
  rewrite after_limit_cons by lia.
  destruct (decide (is_active x)) as [Hx|Hx].
  - rewrite place_loop_active in H by done.
    repeat case_match; try done; by rewrite (IH _ H).
  - rewrite place_loop_inactive in H by done. destruct v; [done|].
    by rewrite (IH _ H).
Qed.

(** X3. A returning call prints the limit warning exactly when some entry of
    the list, active or not, comes after 64 active ones; so the warning also
    appears when only an inactive entry follows the 64th active one and
    nothing is dropped. *)
Theorem copy_files_warning l v r :
  copy_files l v = Returned r →
  HitPatchLimit 64 ∈ printed r
  ↔ ∃ l1 x l2, l = l1 ++ x :: l2 ∧ (64 ≤ length (filter is_active l1))%nat.
Proof.
  intros Hr. destruct (copy_files_printed _ _ _ Hr) as (st & Hst & _ & Hp).
  change 64%nat with page_size at 1. rewrite Hp.
  rewrite (place_loop_warning _ _ _ _ Hst).
  change (stdout alloc_init) with (@nil line).
  change (count alloc_init) with 1%nat. unfold page_size. split.
  - intros [Hin|(l1 & x & l2 & ? & ?)]; [by apply elem_of_nil in Hin|].
    exists l1, x, l2. split; [done|lia].
  - intros (l1 & x & l2 & ? & ?). right. exists l1, x, l2. split; [done|lia].
Qed.

Lemma copy_files_warning_witness :
  let l := ((λ i : nat, sample (pretty i) true None) <$> seq 0 64)
             ++ [sample "off.bin" false None] in
  ∃ r, copy_files l false = Returned r
    ∧ length (copied r) = length (filter is_active l)
    ∧ HitPatchLimit 64 ∈ printed r.
Proof.
  intros l.
  destruct (copy_files l false) as [r| |] eqn:Hr;
    [|by vm_compute in Hr..].
  exists r. split; [done|]. split.
  - destruct (copy_files_copied_cells _ _ _ Hr) as [-> _]. by vm_compute.
  - apply (copy_files_warning l false r Hr).
    exists ((λ i : nat, sample (pretty i) true None) <$> seq 0 64),
      (sample "off.bin" false None), []. split; [done|]. by vm_compute.
Defined.

(** ** When the call raises: copying on a file system *)

(** The copy loop on a file system makes the calls the loop decided on, one
    after the other, and stops at the first that raises. *)
Lemma copy_loop_on_run {FS} (copyfile : copier FS) d v cells order k σ :
  copy_loop v cells order = Returned k →
  copy_loop_on copyfile d v cells order σ =
    ((copy_all copyfile
        ((λ c, (full_path c.2, copy_path d c.1 c.2)) <$> k.1) σ).1,
     match (copy_all copyfile
              ((λ c, (full_path c.2, copy_path d c.1 c.2)) <$> k.1) σ).2 with
     | None => Returned k
     | Some e => Raised e
     end).
Proof.
  revert k σ. induction cells as [|i cells IH]; intros k σ H.
  { simpl in H. by simplify_eq. }
  cbn [copy_loop copy_loop_on] in *.
  destruct (order !! i) as [[pf|]|]; [|by apply IH|done].
  destruct (copy_loop v cells order) as [r| |]; [|done..].
  cbn [obind] in H. simplify_eq. cbn [fst snd fmap list_fmap copy_all].
  destruct (copyfile (full_path pf) (copy_path d i pf) σ) as [σ1 [e|]];
    [done|].
  rewrite (IH r σ1 eq_refl). cbn zeta. cbn [fst snd].
  by destruct (copy_all copyfile _ σ1) as [σ2 [e|]].
Qed.

(** A call on a file system: the slots are settled as [copy_files] settles
    them, without touching a file, and then the copies are made. *)
Lemma copy_files_on_run {FS} (copyfile : copier FS) l d v σ :
  copy_files_on copyfile l d v σ =
    match copy_files l v with
    | Returned r => carry_out copyfile d r σ
    | Raised e => (σ, Raised e)
    | Exited s => (σ, Exited s)
    end.
Proof.
  unfold copy_files_on.
  destruct (place_loop v l alloc_init) as [st|e|s] eqn:Hst.
  - destruct (copy_files_run _ _ _ Hst) as (k & Hk & ->).
    destruct (place_loop_inv _ _ _ _ Hst) as (Hlen & _ & _).
    rewrite alloc_init_length in Hlen.
    rewrite fill_loop_table by exact Hlen.
    cbn zeta. rewrite (copy_loop_on_run copyfile d _ _ _ _ σ Hk).
    unfold carry_out, copyfile_calls. cbn [copied fst snd].
    by destruct (copy_all copyfile _ σ) as [σ' [e|]].
  - unfold copy_files. by rewrite Hst.
  - unfold copy_files. by rewrite Hst.
Qed.

(** With [verbose] on, the first entry the loop cannot take ends the call:
    an inactive one with [TypeError], an active one whose preference Python
    rejects with [IndexError]. *)
Lemma place_loop_verbose_first l1 x l2 :
  (length l1 < 64)%nat →
  Forall (λ y, is_active y ∧ py_slot_ok y) l1 →
  ¬ (is_active x ∧ py_slot_ok x) →
  place_loop true (l1 ++ x :: l2) alloc_init
    = Raised (if decide (is_active x) then IndexError else TypeError).
Proof.
  intros Hlen Hl1 Hx. apply Forall_and in Hl1 as [Hact Hok].
  pose proof (length_filter is_active l1) as Hf.
  rewrite place_loop_app
    by (change (count alloc_init) with 1%nat; unfold page_size; lia).
  destruct (place_loop_returns true l1 alloc_init) as [st1 H1]; [done| |done|].
  { eapply Forall_impl; [exact Hok|]. intros y. apply py_slot_ok_index_ok. }
  rewrite H1. cbn [obind].
  destruct (place_loop_inv _ _ _ _ H1) as (Hlen1 & Hcnt1 & _).
  rewrite alloc_init_length in Hlen1.
  change (count alloc_init) with 1%nat in Hcnt1. rewrite length_take in Hcnt1.
  assert (¬ (page_size < count st1)%nat) as Hc by (unfold page_size; lia).
  destruct (decide (is_active x)) as [Ha|Ha].
  - rewrite place_loop_active by done.
    destruct (preferred_index x) as [p|] eqn:Hp.
    + rewrite Hlen1. change page_size with 64%nat.
      destruct (py_index 64 p) as [c|] eqn:Hidx; [|done].
      destruct Hx. split; [done|]. apply py_slot_ok_index_ok.
      intros q Hq. rewrite Hp in Hq. injection Hq as <-. by rewrite Hidx.
    + destruct Hx. split; [done|]. unfold py_slot_ok. by rewrite Hp.
  - by rewrite place_loop_inactive by done.
Qed.

(** X4. With [verbose] off, on entries with fields of the declared types: if
    one of the first 64 active entries has a preference below -64 or above
    63, [copy_files] raises [IndexError] and the file system is as it was;
    otherwise the slots are settled and the copies are made in the order of
    the cells, so the call returns when every [copyfile] returns and raises
    what the first failing [copyfile] raises, the copies made before it
    left in place.  Inactive entries and entries after the 64th active one
    are never the cause. *)
Theorem copy_files_quiet_raises {FS} (copyfile : copier FS) l dest_dir σ :
  (Exists (λ x, ¬ py_slot_ok x) (take 64 (filter is_active l)) →
     copy_files_on copyfile l dest_dir false σ = (σ, Raised IndexError))
  ∧ (Forall py_slot_ok (take 64 (filter is_active l)) →
     ∃ r, copy_files l false = Returned r
       ∧ copy_files_on copyfile l dest_dir false σ
           = carry_out copyfile dest_dir r σ).
Proof.
  rewrite copy_files_on_run.
  pose proof (place_loop_quiet_outcome l alloc_init eq_refl) as H.
  change (S page_size - count alloc_init)%nat with 64%nat in H.
  destruct (place_loop false l alloc_init) as [st|e|s] eqn:Hst; [| |done].
  - destruct (copy_files_returned _ _ _ Hst) as (r & Hr & _).
    rewrite Hr. split; [|by eauto].
    intros HE. by destruct (Forall_Exists_not _ _ H HE).
  - destruct H as [-> HE].
    assert (copy_files l false = Raised IndexError) as ->
      by (unfold copy_files; by rewrite Hst).
    split; [done|]. intros HF. by destruct (Forall_Exists_not _ _ HF HE).
Qed.

(** X5. With [verbose] on, on entries with fields of the declared types: when
    the first 64 entries of the list are all active with no preference or
    one from -64 to 63, the slots are settled and the call returns when
    every [copyfile] returns, raising what the first failing [copyfile]
    raises otherwise; and the first of the first 64 entries that is not so
    ends the call before any file is touched, with [TypeError] when it is
    inactive and [IndexError] when its preference is out of range. *)
Theorem copy_files_verbose_returns {FS} (copyfile : copier FS) l dest_dir σ :
  (Forall (λ x, is_active x ∧ py_slot_ok x) (take 64 l) →
     ∃ r, copy_files l true = Returned r
       ∧ copy_files_on copyfile l dest_dir true σ
           = carry_out copyfile dest_dir r σ)
  ∧ (∀ l1 x l2,
       l = l1 ++ x :: l2 → (length l1 < 64)%nat →
       Forall (λ y, is_active y ∧ py_slot_ok y) l1 →
       ¬ (is_active x ∧ py_slot_ok x) →
       copy_files_on copyfile l dest_dir true σ
         = (σ, Raised (if decide (is_active x) then IndexError
                       else TypeError))).
Proof.
  rewrite copy_files_on_run. split.
  - intros HF.
    pose proof (place_loop_verbose_outcome l alloc_init eq_refl) as H.
    change (S page_size - count alloc_init)%nat with 64%nat in H.
    destruct (place_loop true l alloc_init) as [st|e|s] eqn:Hst; [| |done].
    + destruct (copy_files_returned _ _ _ Hst) as (r & Hr & _).
      rewrite Hr. eauto.
    + by destruct (Forall_Exists_not _ _ HF H).
  - intros l1 x l2 -> Hlen Hl1 Hx.
    assert (copy_files (l1 ++ x :: l2) true
            = Raised (if decide (is_active x) then IndexError else TypeError))
      as ->; [|done].
    unfold copy_files. by rewrite place_loop_verbose_first.
Qed.

(** ** Entries without preferences *)

Lemma place_loop_no_preference v l st :
  Forall (λ x, is_active x ∧ preferred_index x = None) l →
  ∃ st', place_loop v l st = Returned st'
    ∧ patch_order st' = patch_order st
    ∧ unordered_patches st' =
        unordered_patches st ++ take (S page_size - count st) l.
Proof.
  revert st. induction l as [|x l IH]; intros st Hl.
  { exists st. by rewrite take_nil, app_nil_r. }
  apply Forall_cons in Hl as [[Hx Hp] Hl].
  destruct (decide (page_size < count st)%nat) as [Hc|Hc].
  { rewrite place_loop_full by done. eexists. split; [done|]. simpl.
    replace (S page_size - count st)%nat with 0%nat by lia.
    by rewrite take_0, app_nil_r. }
  rewrite place_loop_active, Hp by done.
  destruct (IH (enqueue x st) Hl) as (st' & -> & Ho & Hu).
  exists st'. split; [done|]. split; [done|]. rewrite Hu. simpl.
  replace (S page_size - count st)%nat
    with (S (page_size - count st)) by lia.
  by rewrite firstn_cons, <-(assoc_L (++)).
Qed.

Lemma fifo_fill_empty_table n queue :
  fifo_fill (replicate n None) queue =
    ((Some <$> take n queue) ++ replicate (n - length queue) None,
     drop n queue).
Proof.
  revert queue. induction n as [|n IH]; intros queue; [done|].
  destruct queue as [|e queue]; [done|]. simpl. by rewrite IH.
Qed.

Lemma no_preference_table l v :
  Forall (λ x, is_active x ∧ preferred_index x = None) l →
  ∃ r, copy_files l v = Returned r
    ∧ table r = (Some <$> take 64 l) ++ replicate (64 - length l) None.
Proof.
  intros Hl.
  destruct (place_loop_no_preference v l alloc_init Hl)
    as (st & Hst & Ho & Hu).
  destruct (copy_files_returned _ _ _ Hst) as (r & Hr & Ht & _).
  exists r. split; [done|]. rewrite Ht, Ho, Hu.
  change (patch_order alloc_init) with (replicate 64 (@None PatchFile)).
  change (unordered_patches alloc_init) with (@nil PatchFile).
  change (S page_size - count alloc_init)%nat with 64%nat.
  rewrite app_nil_l, fifo_fill_empty_table. simpl.
  rewrite take_take, length_take. do 2 f_equal. lia.
Qed.

(** X6. When every entry is active and none has a preference, the entries
    are numbered in list order: the i-th entry (from 0) holds cell i, up to
    the 64th, and the other cells stay empty.  Either [verbose] setting. *)
Theorem copy_files_no_preference l v :
  Forall (λ x, is_active x ∧ preferred_index x = None) l →
  ∃ r, copy_files l v = Returned r
    ∧ table r = (Some <$> take 64 l) ++ replicate (64 - length l) None.
Proof. apply no_preference_table. Qed.

Lemma copy_files_no_preference_witness :
  let l := [sample "a.bin" true None; sample "b.bin" true None] in
  ∃ r, copy_files l true = Returned r
    ∧ table r = (Some <$> take 64 l) ++ replicate (64 - length l) None.
Proof.
  intros l. apply (copy_files_no_preference l true).
  repeat constructor.
Defined.

(** * File names *)

Lemma endswith_cons c s suffix :
  endswith (String c s) suffix = true →
  String c s = suffix ∨ endswith s suffix = true.
Proof.
  simpl. intros [H|H]%orb_true_iff; [|by right].
  left. by apply bool_decide_eq_true in H.
Qed.

Lemma endswith_app a s suffix :
  endswith s suffix = true → endswith (a +:+ s) suffix = true.
Proof.
  intros Hs. induction a as [|c a IH]; [done|].
  simpl. rewrite IH. apply orb_true_r.
Qed.

Lemma endswith_refl s : endswith s s = true.
Proof.
  destruct s as [|c s]; [done|]. simpl. by rewrite bool_decide_eq_true_2.
Qed.

(** [{i:03}] of an index below 1000 is three digits that spell the index. *)
Lemma format_03_parse i : (i < 1000)%nat → parse_3 (format_03 i) = i.
Proof.
  intros Hi.
  assert (Forall (λ i, parse_3 (format_03 i) = i) (seq 0 1000)) as H.
  { apply (bool_decide_unpack _). by vm_compute. }
  eapply Forall_forall in H; [done|]. apply elem_of_seq. lia.
Qed.

Lemma parse_3_digits s :
  (parse_3 s < 1000)%nat →
  ∃ a b c, s = String a (String b (String c EmptyString))
    ∧ is_digit a = true ∧ is_digit b = true ∧ is_digit c = true.
Proof.
  unfold parse_3. intros H.
  destruct s as [|a [|b [|c [|]]]]; try lia.
  destruct (is_digit a) eqn:?, (is_digit b) eqn:?, (is_digit c) eqn:?;
    simpl in H; try lia. by exists a, b, c.
Qed.

Lemma format_03_digits i :
  (i < 1000)%nat →
  ∃ a b c, format_03 i = String a (String b (String c EmptyString))
    ∧ is_digit a = true ∧ is_digit b = true ∧ is_digit c = true.
Proof.
  intros Hi. apply parse_3_digits. by rewrite format_03_parse.
Qed.

Lemma format_03_inj i j :
  (i < 1000)%nat → (j < 1000)%nat → format_03 i = format_03 j → i = j.
Proof.
  intros Hi Hj H. rewrite <-(format_03_parse i), <-(format_03_parse j) by done.
  by rewrite H.
Qed.

Lemma is_digit_not_slash a : is_digit a = true → a ≠ Ascii.ascii_of_nat 47.
Proof. intros H ->. by vm_compute in H. Qed.

(** Appending to a literal, one character at a time. *)
Ltac push_append :=
  repeat match goal with
  | |- context [String.append (String ?c ?s) ?t] =>
    change (String.append (String c s) t) with (String c (String.append s t))
  | |- context [String.append EmptyString ?t] =>
    change (String.append EmptyString t) with t
  end.

Ltac push_append_in H :=
  repeat match type of H with
  | context [String.append (String ?c ?s) ?t] =>
    change (String.append (String c s) t)
      with (String c (String.append s t)) in H
  | context [String.append EmptyString ?t] =>
    change (String.append EmptyString t) with t in H
  end.

(** The name of a copy: three digits, the separator, the display name. *)
Lemma copy_name_shape i x :
  (i < 1000)%nat →
  ∃ a b c, copy_name i x = String a (String b (String c ("_zoia_" +:+ name x)))
    ∧ is_digit a = true ∧ is_digit b = true ∧ is_digit c = true.
Proof.
  intros Hi. destruct (format_03_digits i Hi) as (a & b & c & Hf & ?).
  exists a, b, c. split; [|done]. unfold copy_name. by rewrite Hf.
Qed.

(** Stripping the index of a copy's name gives back the display name. *)
Lemma strip_index_copy_name i x :
  (i < 1000)%nat → strip_index (copy_name i x) = name x.
Proof.
  intros Hi.
  destruct (copy_name_shape i x Hi) as (a & b & c & -> & Ha & Hb & Hc).
  unfold strip_index. rewrite Ha, Hb, Hc. push_append. reflexivity.
Qed.

(** A copy ends in [.bin] exactly when the display name does. *)
Lemma endswith_copy_name i x :
  (i < 1000)%nat →
  endswith (copy_name i x) ".bin" = endswith (name x) ".bin".
Proof.
  intros Hi. destruct (endswith (name x) ".bin") eqn:Hn.
  { unfold copy_name. by do 2 apply endswith_app. }
  destruct (copy_name_shape i x Hi) as (a & b & c & -> & _).
  apply not_true_is_false. intros H. push_append_in H.
  repeat (apply endswith_cons in H as [H|H]; [congruence|]).
  congruence.
Qed.

Lemma copy_name_relative i x :
  (i < 1000)%nat → startswith (copy_name i x) "/" = false.
Proof.
  intros Hi. destruct (copy_name_shape i x Hi) as (a & b & c & -> & Ha & _).
  simpl. rewrite bool_decide_eq_false_2; [done|].
  intros <-. by vm_compute in Ha.
Qed.

(** The name of a copy determines its cell and the display name. *)
Lemma copy_name_inj i x j y :
  (i < 1000)%nat → (j < 1000)%nat →
  copy_name i x = copy_name j y → i = j ∧ name x = name y.
Proof.
  intros Hi Hj. unfold copy_name.
  destruct (format_03_digits i Hi) as (a & b & c & Hf1 & _).
  destruct (format_03_digits j Hj) as (a' & b' & c' & Hf2 & _).
  intros H. rewrite Hf1, Hf2 in H. push_append_in H.
  injection H as -> -> -> Hn. split; [|done].
  apply format_03_inj; [done..|]. by rewrite Hf1, Hf2.
Qed.

(** Below one directory, different relative names are different paths. *)
Lemma path_join_inj dir n1 n2 :
  startswith n1 "/" = false → startswith n2 "/" = false →
  path_join dir n1 = path_join dir n2 → n1 = n2.
Proof.
  unfold path_join. intros -> ->.
  destruct (bool_decide (dir = "") || endswith dir "/").
  - apply (inj (String.append dir)).
  - intros H. apply (inj (String.append dir)) in H.
    by apply (inj (String.append "/")) in H.
Qed.

(** The scanner applied to one name. *)
Lemma get_patch_files_app dir files1 files2 :
  get_patch_files dir (files1 ++ files2)
    = get_patch_files dir files1 ++ get_patch_files dir files2.
Proof.
  induction files1 as [|f files1 IH]; [done|]. simpl.
  destruct (endswith f ".bin"); simpl; by rewrite IH.
Qed.

(** X7. No two copies of a run go to the same destination: the copies of a
    returning call have pairwise different destination paths, whatever the
    names of the entries, and each is read from the entry's [full_path]. *)
Theorem copy_files_destinations_distinct l v dest_dir r :
  copy_files l v = Returned r →
  NoDup (copyfile_calls dest_dir r).*2
  ∧ (copyfile_calls dest_dir r).*1 = full_path <$> (copied r).*2.
Proof.
  intros Hr. destruct (copy_files_copied_cells _ _ _ Hr) as (_ & Hs & Hin).
  destruct (copy_files_printed _ _ _ Hr) as (_ & _ & Hsub & _).
  unfold copyfile_calls. split.
  - rewrite <-list_fmap_compose. apply NoDup_fmap_2_strong.
    + intros [i x] [j y] Hi Hj. simpl. intros Hp.
      assert (i < 1000 ∧ j < 1000)%nat as [Hi' Hj'].
      { split.
        - assert (i ∈ seq 0 page_size) as Hk%elem_of_seq.
          { eapply elem_of_sublist; [|done].
            apply list_elem_of_fmap. by exists (i, x). }
          unfold page_size in Hk. lia.
        - assert (j ∈ seq 0 page_size) as Hk%elem_of_seq.
          { eapply elem_of_sublist; [|done].
            apply list_elem_of_fmap. by exists (j, y). }
          unfold page_size in Hk. lia. }
      apply path_join_inj in Hp; [|by apply copy_name_relative..].
      apply copy_name_inj in Hp as [<- _]; [|done..].
      apply Hin in Hi. apply Hin in Hj. congruence.
    + eapply NoDup_fmap_1. apply sorted_lt_NoDup. exact Hs.
  - rewrite <-!list_fmap_compose. by apply list_fmap_ext.
Qed.

Lemma copy_files_destinations_distinct_witness :
  let l := [sample "a.bin" true None; sample "a.bin" true None] in
  let r := mkRun (<[1%nat := Some (sample "a.bin" true None)]>
                    (<[0%nat := Some (sample "a.bin" true None)]>
                       (replicate 64 None)))
                 [] []
                 [(0%nat, sample "a.bin" true None);
                  (1%nat, sample "a.bin" true None)] in
  NoDup (copyfile_calls "/Volumes/ZOIA/to_zoia" r).*2
  ∧ (copyfile_calls "/Volumes/ZOIA/to_zoia" r).*1
      = full_path <$> (copied r).*2.
Proof.
  intros l r.
  apply (copy_files_destinations_distinct l false "/Volumes/ZOIA/to_zoia" r).
  reflexivity.
Defined.

(** * The scanner *)

Lemma startswith_app s p :
  startswith s p = true → s = p +:+ drop_chars (String.length p) s.
Proof.
  revert s. induction p as [|a p IH]; intros s H; [done|].
  destruct s as [|b s]; [done|]. simpl in H.
  apply andb_true_iff in H as [Hab Hs]. apply bool_decide_eq_true in Hab.
  subst b. push_append. simpl. f_equal. by apply IH.
Qed.

(** Stripping the index keeps the [.bin] ending. *)
Lemma strip_index_bin f :
  endswith f ".bin" = true → endswith (strip_index f) ".bin" = true.
Proof.
  unfold strip_index. destruct f as [|a [|b [|c rest]]]; try done.
  destruct (is_digit a && is_digit b && is_digit c
            && startswith rest "_zoia_") eqn:Hm; [|done].
  apply andb_true_iff in Hm as [_ Hm]. apply startswith_app in Hm.
  simpl in Hm. intros H. rewrite Hm in H. push_append_in H.
  repeat (apply endswith_cons in H as [H|H]; [congruence|]).
  exact H.
Qed.

Lemma get_patch_files_file_names dir files :
  file_name <$> get_patch_files dir files
    = filter (λ f, endswith f ".bin" = true) files.
Proof.
  induction files as [|f files IH]; [done|]. simpl.
  destruct (endswith f ".bin") eqn:Hf; simpl.
  - rewrite filter_cons_True by done. by f_equal.
  - rewrite filter_cons_False by (by rewrite Hf). done.
Qed.

Lemma get_patch_files_records dir files :
  Forall (λ pf,
    is_active pf ∧ preferred_index pf = None
    ∧ full_path pf = path_join dir (file_name pf)
    ∧ name pf = strip_index (file_name pf)
    ∧ endswith (name pf) ".bin" = true)
    (get_patch_files dir files).
Proof.
  induction files as [|f files IH]; [constructor|]. simpl.
  destruct (endswith f ".bin") eqn:Hf; simpl; [|done].
  constructor; [|done]. simpl. split_and!; try done.
  by apply strip_index_bin.
Qed.

(** Three digits are the format [{i:03}] of a number below 1000. *)
Lemma digits_format_03 a b c :
  is_digit a = true → is_digit b = true → is_digit c = true →
  ∃ i, (i < 1000)%nat ∧ format_03 i = String a (String b (String c EmptyString)).
Proof.
  assert (∀ x, is_digit x = true →
            ∃ d, (d < 10)%nat ∧ x = Ascii.ascii_of_nat (48 + d)) as Hd.
  { intros x Hx. apply bool_decide_eq_true in Hx.
    exists (Ascii.nat_of_ascii x - 48)%nat. split; [lia|].
    replace (48 + (Ascii.nat_of_ascii x - 48))%nat
      with (Ascii.nat_of_ascii x) by lia.
    by rewrite Ascii.ascii_nat_embedding. }
  intros (da & Ha & ->)%Hd (db & Hb & ->)%Hd (dc & Hc & ->)%Hd.
  exists (100 * da + 10 * db + dc)%nat. split; [lia|].
  assert (Forall (λ da, Forall (λ db, Forall (λ dc,
            format_03 (100 * da + 10 * db + dc)
            = String (Ascii.ascii_of_nat (48 + da))
                (String (Ascii.ascii_of_nat (48 + db))
                   (String (Ascii.ascii_of_nat (48 + dc)) EmptyString)))
            (seq 0 10)) (seq 0 10)) (seq 0 10)) as H.
  { apply (bool_decide_unpack _). by vm_compute. }
  eapply Forall_forall in H; [|apply elem_of_seq; split; [lia|exact Ha]].
  eapply Forall_forall in H; [|apply elem_of_seq; split; [lia|exact Hb]].
  eapply Forall_forall in H; [|apply elem_of_seq; split; [lia|exact Hc]].
  exact H.
Qed.

(** What the scanner removes is the index a copy carries: a name either is
    [<i:03>_zoia_] followed by what is kept, for a number below 1000, or
    starts with no such index and is kept whole. *)
Lemma strip_index_shape f :
  (∃ i, (i < 1000)%nat ∧ f = format_03 i +:+ "_zoia_" +:+ strip_index f)
  ∨ (strip_index f = f
     ∧ ∀ i, (i < 1000)%nat →
         startswith f (format_03 i +:+ "_zoia_") = false).
Proof.
  assert (∀ i, (i < 1000)%nat →
            startswith f (format_03 i +:+ "_zoia_") = true →
            ∃ a b c rest, f = String a (String b (String c rest))
              ∧ (is_digit a && is_digit b && is_digit c
                 && startswith rest "_zoia_") = true) as Hstart.
  { intros i Hi H.
    destruct (format_03_digits i Hi) as (a & b & c & Hf & Ha & Hb & Hc).
    rewrite Hf in H. push_append_in H.
    destruct f as [|a' [|b' [|c' rest]]]; simpl in H;
      rewrite ?andb_false_r in H; try done.
    apply andb_true_iff in H as [<-%bool_decide_eq_true H].
    apply andb_true_iff in H as [<-%bool_decide_eq_true H].
    apply andb_true_iff in H as [<-%bool_decide_eq_true H].
    exists a, b, c, rest. split; [done|]. rewrite Ha, Hb, Hc. simpl.
    exact H. }
  unfold strip_index.
  destruct f as [|a [|b [|c rest]]];
    try (right; split; [done|]; intros i Hi; apply not_true_is_false;
         intros (? & ? & ? & ? & ? & _)%Hstart; done).
  destruct (is_digit a && is_digit b && is_digit c
            && startswith rest "_zoia_") eqn:Hm.
  - left. apply andb_true_iff in Hm as [Hm Hz].
    apply andb_true_iff in Hm as [Hm Hc].
    apply andb_true_iff in Hm as [Ha Hb].
    destruct (digits_format_03 a b c Ha Hb Hc) as (i & Hi & Hf).
    exists i. split; [done|]. rewrite Hf. push_append.
    do 3 f_equal. by apply startswith_app in Hz.
  - right. split; [done|]. intros i Hi. apply not_true_is_false.
    intros (a' & b' & c' & rest' & [= -> -> -> ->] & Hm')%Hstart; [|done].
    congruence.
Qed.

Lemma is_ascii_drop_chars n s :
  is_ascii s = true → is_ascii (drop_chars n s) = true.
Proof.
  revert s. induction n as [|n IH]; intros [|c s] H; try done.
  simpl in *. apply andb_true_iff in H as [_ H]. by apply IH.
Qed.

(** The display names of a scan of ASCII names are ASCII. *)
Lemma get_patch_files_ascii dir files :
  Forall (λ f, is_ascii f = true) files →
  Forall (λ pf, is_ascii (name pf) = true) (get_patch_files dir files).
Proof.
  induction 1 as [|f files Hf _ IH]; [constructor|]. simpl.
  destruct (endswith f ".bin"); simpl; [|done].
  constructor; [|done]. simpl. unfold strip_index.
  destruct f as [|a [|b [|c rest]]]; try done.
  destruct (_ && _); [|done].
  by apply (is_ascii_drop_chars 9 (String a (String b (String c rest)))).
Qed.

(** X8. Scan completeness, for listed names made of ASCII characters: the
    scanner returns one record for each listed name that ends in [.bin],
    in listing order; each record is active, has no preference and has
    [patch_dir] joined with the listed name as [full_path]; its display
    name is made of ASCII characters and still ends in [.bin]; and the
    display name is the listed name without the index a copy carries:
    either the listed name is the copy name [<i:03>_zoia_<name>] of the
    record for some number below 1000 (not only the numbers below 64 that
    [copy_files] writes), or it starts with no such index and is the
    display name. *)
Theorem get_patch_files_complete dir files :
  Forall (λ f, is_ascii f = true) files →
  file_name <$> get_patch_files dir files
    = filter (λ f, endswith f ".bin" = true) files
  ∧ Forall (λ pf,
      is_active pf ∧ preferred_index pf = None
      ∧ full_path pf = path_join dir (file_name pf)
      ∧ is_ascii (name pf) = true
      ∧ endswith (name pf) ".bin" = true
      ∧ ((∃ i, (i < 1000)%nat ∧ file_name pf = copy_name i pf)
         ∨ (name pf = file_name pf
            ∧ ∀ i, (i < 1000)%nat →
                startswith (file_name pf) (format_03 i +:+ "_zoia_") = false)))
      (get_patch_files dir files).
Proof.
  intros Hascii. split; [apply get_patch_files_file_names|].
  pose proof (get_patch_files_records dir files) as Hrec.
  apply get_patch_files_ascii with (dir := dir) in Hascii.
  apply Forall_forall. intros pf Hpf.
  eapply Forall_forall in Hrec as (Ha & Hp & Hfp & Hn & Hb); [|done].
  eapply Forall_forall in Hascii; [|done].
  split_and!; try done.
  unfold copy_name. rewrite Hn. apply strip_index_shape.
Qed.

Lemma get_patch_files_complete_witness :
  let files := ["007_zoia_foo.bin"; "bar.bin"; "notes.txt"; "12_zoia_x.bin"] in
  file_name <$> get_patch_files "./patches" files
    = filter (λ f, endswith f ".bin" = true) files
  ∧ Forall (λ pf,
      is_active pf ∧ preferred_index pf = None
      ∧ full_path pf = path_join "./patches" (file_name pf)
      ∧ is_ascii (name pf) = true
      ∧ endswith (name pf) ".bin" = true
      ∧ ((∃ i, (i < 1000)%nat ∧ file_name pf = copy_name i pf)
         ∨ (name pf = file_name pf
            ∧ ∀ i, (i < 1000)%nat →
                startswith (file_name pf) (format_03 i +:+ "_zoia_") = false)))
      (get_patch_files "./patches" files).
Proof.
  intros files. apply (get_patch_files_complete "./patches" files).
  repeat constructor.
Defined.

Lemma get_patch_files_full_paths dir files :
  full_path <$> get_patch_files dir files
    = path_join dir <$> filter (λ f, endswith f ".bin" = true) files.
Proof.
  induction files as [|f files IH]; [done|]. simpl.
  destruct (endswith f ".bin") eqn:Hf; simpl.
  - rewrite filter_cons_True by done. rewrite fmap_cons. by f_equal.
  - rewrite filter_cons_False by (by rewrite Hf). done.
Qed.

(** X9. Listed names that differ give records with different [full_path]s, so
    a scan never holds two records with the same identity. *)
Theorem get_patch_files_paths_distinct dir files :
  NoDup files → Forall (λ f, startswith f "/" = false) files →
  NoDup (full_path <$> get_patch_files dir files).
Proof.
  intros Hnd Hrel. rewrite get_patch_files_full_paths.
  apply NoDup_fmap_2_strong; [|by apply NoDup_filter].
  intros f g [_ Hf]%list_elem_of_filter [_ Hg]%list_elem_of_filter.
  apply path_join_inj; by eapply Forall_forall in Hrel.
Qed.

Lemma get_patch_files_paths_distinct_witness :
  NoDup (full_path <$> get_patch_files "./patches"
           ["000_zoia_foo.bin"; "000_zoia_bar.bin"; "notes.txt"]).
Proof.
  apply get_patch_files_paths_distinct.
  - apply (bool_decide_unpack _). by vm_compute.
  - repeat constructor.
Defined.

(** The copy loop over a table whose first cells are filled and whose other
    cells are empty numbers the entries from the first cell on. *)
Lemma copy_loop_empty_cells v pre m :
  copy_loop v (seq (length pre) m) (pre ++ replicate m None)
    = Returned ([], []).
Proof.
  revert pre. induction m as [|m IH]; intros pre; [done|].
  cbn [seq copy_loop replicate].
  rewrite lookup_app_r, Nat.sub_diag by done. cbn [lookup list_lookup].
  specialize (IH (pre ++ [None])).
  by rewrite length_app, Nat.add_1_r, <-(assoc_L (++)) in IH.
Qed.

Lemma copy_loop_numbered v pre xs m :
  ∃ k, copy_loop v (seq (length pre) (length xs + m))
         (pre ++ (Some <$> xs) ++ replicate m None) = Returned k
    ∧ k.1 = zip (seq (length pre) (length xs)) xs.
Proof.
  revert pre. induction xs as [|x xs IH]; intros pre.
  { eexists. split; [apply copy_loop_empty_cells|done]. }
  cbn [length Nat.add seq copy_loop fmap list_fmap app zip zip_with].
  rewrite lookup_app_r, Nat.sub_diag by done. cbn [lookup list_lookup].
  destruct (IH (pre ++ [Some x])) as (k & Hk & Hz).
  rewrite length_app, Nat.add_1_r in Hk, Hz. rewrite <-(assoc_L (++)) in Hk.
  cbn [app] in Hk. rewrite Hk. cbn [obind].
  eexists. split; [done|]. cbn [fst]. by rewrite Hz.
Qed.

Lemma zip_seq_take {A} a n (l : list A) :
  zip (seq a (length (take n l))) (take n l) = zip (seq a n) l.
Proof.
  revert a l. induction n as [|n IH]; intros a [|x l]; try done.
  simpl. f_equal. apply IH.
Qed.

(** Entries that are all active and without preference are copied in list
    order, the i-th to cell i. *)
Lemma no_preference_copied l v :
  Forall (λ x, is_active x ∧ preferred_index x = None) l →
  ∃ r, copy_files l v = Returned r
    ∧ table r = (Some <$> take 64 l) ++ replicate (64 - length l) None
    ∧ copied r = zip (seq 0 64) l.
Proof.
  intros Hl. destruct (no_preference_table l v Hl) as (r & Hr & Ht).
  exists r. split; [exact Hr|]. split; [exact Ht|].
  destruct (copy_files_inv _ _ _ Hr) as [st Hst].
  destruct (copy_files_run _ _ _ Hst) as (k & Hk & Hrun).
  rewrite Hrun in Hr. injection Hr as <-. cbn [table copied] in *.
  clear Hrun. rewrite Ht in Hk.
  destruct (copy_loop_numbered v [] (take 64 l) (64 - length l))
    as (k' & Hk' & Hz).
  rewrite app_nil_l in Hk'. change (length []) with 0%nat in Hk', Hz.
  replace (length (take 64 l) + (64 - length l))%nat with page_size in Hk'
    by (rewrite length_take; unfold page_size; lia).
  rewrite Hk in Hk'. injection Hk' as ->.
  rewrite Hz. apply zip_seq_take.
Qed.

Lemma get_patch_files_scanned dir files :
  get_patch_files dir files
    = scanned dir <$> filter (λ f, endswith f ".bin" = true) files.
Proof.
  induction files as [|f files IH]; [done|]. simpl.
  destruct (endswith f ".bin") eqn:Hf; simpl.
  - rewrite filter_cons_True by done. rewrite fmap_cons. by f_equal.
  - rewrite filter_cons_False by (by rewrite Hf). done.
Qed.

(** X10. Scan, then copy, for listed names made of ASCII characters: on a
    fresh scan the slots are always settled, under either [verbose]
    setting, the i-th listed [.bin] name [f] (from 0, up to the 64th) being
    copied from [<patch_dir>/f] to [<dest_dir>/<i:03>_zoia_<f without its
    index>], whatever index [f] carried; so the only way the call can raise
    is a [copyfile] that raises. *)
Theorem copy_files_of_scan {FS} (copyfile : copier FS) dir files dest_dir v σ :
  Forall (λ f, is_ascii f = true) files →
  let scan := get_patch_files dir files in
  ∃ r, copy_files scan v = Returned r
    ∧ copied r = zip (seq 0 64) scan
    ∧ copyfile_calls dest_dir r
        = (λ c, (path_join dir c.2,
                 path_join dest_dir
                   (format_03 c.1 +:+ "_zoia_" +:+ strip_index c.2)))
            <$> zip (seq 0 64) (filter (λ f, endswith f ".bin" = true) files)
    ∧ copy_files_on copyfile scan dest_dir v σ
        = carry_out copyfile dest_dir r σ.
Proof.
  intros _ scan.
  destruct (no_preference_copied scan v) as (r & Hr & _ & Hc).
  { eapply Forall_impl; [apply get_patch_files_records|].
    by intros pf (? & ? & _). }
  exists r. split_and!; [exact Hr|exact Hc| |].
  - unfold copyfile_calls. rewrite Hc. unfold scan.
    rewrite get_patch_files_scanned.
    rewrite zip_with_fmap_r, zip_with_zip, <-list_fmap_compose.
    apply list_fmap_ext. intros i [c f] _. reflexivity.
  - by rewrite copy_files_on_run, Hr.
Qed.

Lemma copy_files_of_scan_witness :
  let files := ["007_zoia_foo.bin"; "notes.txt"; "bar.bin"] in
  let scan := get_patch_files "./patches" files in
  let σ := ["./patches/007_zoia_foo.bin"] in
  ∃ r, copy_files scan true = Returned r
    ∧ copied r = zip (seq 0 64) scan
    ∧ copyfile_calls "/Volumes/ZOIA/to_zoia" r
        = (λ c, (path_join "./patches" c.2,
                 path_join "/Volumes/ZOIA/to_zoia"
                   (format_03 c.1 +:+ "_zoia_" +:+ strip_index c.2)))
            <$> zip (seq 0 64) (filter (λ f, endswith f ".bin" = true) files)
    ∧ copy_files_on copyfile_paths scan "/Volumes/ZOIA/to_zoia" true σ
        = carry_out copyfile_paths "/Volumes/ZOIA/to_zoia" r σ.
Proof.
  intros files scan σ.
  apply (copy_files_of_scan copyfile_paths "./patches" files
           "/Volumes/ZOIA/to_zoia" true σ).
  repeat constructor.
Defined.

(** Scanning the names of copies gives every copy back under its display
    name: for cells below 1000 and display names ending in [.bin], each
    copy's name is kept by the scanner and stripped back to the display
    name. *)
Lemma get_patch_files_of_copies dir (cs : list (nat * PatchFile)) :
  Forall (λ c, (c.1 < 1000)%nat ∧ endswith (name c.2) ".bin" = true) cs →
  get_patch_files dir ((λ c, copy_name c.1 c.2) <$> cs)
    = scanned_copy dir <$> cs.
Proof.
  induction 1 as [|[i x] cs [Hi Hx] _ IH]; [done|].
  rewrite !fmap_cons. cbn [get_patch_files fst snd] in *.
  rewrite endswith_copy_name, Hx by done. cbn [negb].
  rewrite strip_index_copy_name by done. by rewrite IH.
Qed.

(** X11. Copy, then scan: when the display names of the entries end in [.bin],
    scanning the names [copy_files] gave its copies returns one record per
    copy, in the same order, whose [name] is the display name of the entry
    copied and whose [file_name] carries the cell index. *)
Theorem copy_files_then_scan l v r dir :
  copy_files l v = Returned r →
  Forall (λ x, endswith (name x) ".bin" = true) l →
  get_patch_files dir ((λ c, copy_name c.1 c.2) <$> copied r)
    = scanned_copy dir <$> copied r
  ∧ name <$> (scanned_copy dir <$> copied r) = name <$> (copied r).*2.
Proof.
  intros Hr Hl. split.
  - apply get_patch_files_of_copies. apply Forall_forall. intros [i x] Hin.
    destruct (copy_files_printed _ _ _ Hr) as (_ & _ & Hsub & _).
    destruct (copy_files_placed _ _ _ Hr) as (_ & _ & Hc & Hperm).
    simpl. split.
    + assert (i ∈ seq 0 page_size) as Hk%elem_of_seq.
      { eapply elem_of_sublist; [|done].
        apply list_elem_of_fmap. by exists (i, x). }
      unfold page_size in Hk. lia.
    + assert (x ∈ (copied r).*2) as Hx
        by (apply list_elem_of_fmap; by exists (i, x)).
      rewrite Hc, Hperm in Hx. apply elem_of_take in Hx as (k & Hx & _).
      apply list_elem_of_lookup_2, list_elem_of_filter in Hx as [_ Hx].
      by eapply Forall_forall in Hl.
  - rewrite <-!list_fmap_compose. by apply list_fmap_ext.
Qed.

Lemma copy_files_then_scan_witness :
  let l := [sample "a.bin" true None; sample "b.bin" true (Some 60)] in
  let r := mkRun (<[60%nat := Some (sample "b.bin" true (Some 60))]>
                    (<[0%nat := Some (sample "a.bin" true None)]>
                       (replicate 64 None)))
                 [] []
                 [(0%nat, sample "a.bin" true None);
                  (60%nat, sample "b.bin" true (Some 60))] in
  get_patch_files "/Volumes/ZOIA/to_zoia"
      ((λ c, copy_name c.1 c.2) <$> copied r)
    = scanned_copy "/Volumes/ZOIA/to_zoia" <$> copied r
  ∧ name <$> (scanned_copy "/Volumes/ZOIA/to_zoia" <$> copied r)
      = name <$> (copied r).*2.
Proof.
  intros l r.
  apply (copy_files_then_scan l false r "/Volumes/ZOIA/to_zoia").
  - reflexivity.
  - repeat constructor.
Defined.

(** * Further properties of the merger *)

(** The record put in the place of a fresh one has the fresh one's path. *)
Lemma merged_record_path saved f :
  full_path (default f (last (with_path (full_path f) saved))) = full_path f.
Proof.
  destruct (last _) as [o|] eqn:Hl; [|done].
  by apply last_elem_of, with_path_elem in Hl as [? _].
Qed.

Lemma merge_patch_files_fmap fresh saved :
  merge_patch_files fresh saved
    = (λ f, default f (last (with_path (full_path f) saved))) <$> fresh.
Proof.
  unfold merge_patch_files. apply list_fmap_ext. intros i f _.
  by rewrite override_paths_lookup.
Qed.

(** X12. Merging keeps the identities of the scan, position by position; so a
    scan without repeated paths merges into a collection without repeated
    paths, whatever the saved collection holds. *)
Theorem merge_patch_files_paths fresh saved :
  full_path <$> merge_patch_files fresh saved = full_path <$> fresh
  ∧ (NoDup (full_path <$> fresh) →
     NoDup (full_path <$> merge_patch_files fresh saved)).
Proof.
  assert (full_path <$> merge_patch_files fresh saved = full_path <$> fresh)
    as Heq.
  { rewrite merge_patch_files_fmap, <-list_fmap_compose.
    apply list_fmap_ext. intros i f _. apply merged_record_path. }
  split; [done|]. by rewrite Heq.
Qed.

Lemma merge_patch_files_paths_witness :
  let fresh := [sample "a.bin" true None; sample "b.bin" true None] in
  let saved := [sample "b.bin" false (Some 60); sample "b.bin" true None] in
  NoDup (full_path <$> merge_patch_files fresh saved).
Proof.
  intros fresh saved.
  apply (proj2 (merge_patch_files_paths fresh saved)).
  apply (bool_decide_unpack _). by vm_compute.
Defined.

(** X13. Merging is idempotent: merging the result again with the same saved
    collection changes nothing. *)
Theorem merge_patch_files_idempotent fresh saved :
  merge_patch_files (merge_patch_files fresh saved) saved
    = merge_patch_files fresh saved.
Proof.
  rewrite !merge_patch_files_fmap, <-list_fmap_compose.
  apply list_fmap_ext. intros i f _. simpl.
  rewrite merged_record_path.
  by destruct (last (with_path (full_path f) saved)).
Qed.

(** X14. When the saved collection has the paths of the scan, in the same order
    and without repeats, the merge is the saved collection itself: creating
    a configuration again over an unchanged directory keeps every saved
    choice. *)
Theorem merge_patch_files_unchanged fresh saved :
  full_path <$> fresh = full_path <$> saved →
  NoDup (full_path <$> saved) →
  merge_patch_files fresh saved = saved.
Proof.
  intros Hp Hnd. apply list_eq. intros i.
  destruct (fresh !! i) as [f|] eqn:Hf.
  - assert (is_Some (saved !! i)) as [s Hs].
    { apply lookup_lt_is_Some. apply lookup_lt_Some in Hf.
      by rewrite <-(length_fmap full_path saved), <-Hp, length_fmap. }
    assert (full_path f = full_path s) as Hfs.
    { apply (f_equal (.!! i)) in Hp. rewrite !list_lookup_fmap, Hf, Hs in Hp.
      by injection Hp. }
    rewrite (merge_patch_files_lookup _ _ _ _ Hf), Hs, Hfs.
    rewrite with_path_unique; [done..|]. by eapply list_elem_of_lookup_2.
  - assert (saved !! i = None) as ->.
    { apply lookup_ge_None. apply lookup_ge_None in Hf.
      by rewrite <-(length_fmap full_path saved), <-Hp, length_fmap. }
    apply lookup_ge_None. unfold merge_patch_files. rewrite length_fmap.
    by apply lookup_ge_None.
Qed.

Lemma merge_patch_files_unchanged_witness :
  merge_patch_files
      [sample "a.bin" true None; sample "b.bin" true None]
      [sample "a.bin" false None; sample "b.bin" true (Some 60)]
    = [sample "a.bin" false None; sample "b.bin" true (Some 60)].
Proof.
  apply merge_patch_files_unchanged; [reflexivity|].
  apply (bool_decide_unpack _). by vm_compute.
Defined.

(** * Further properties of the configuration loader *)

(** The constructor accepts a mapping exactly when it gives every required
    field and nothing but declared fields. *)
Lemma PatchFile_kwargs_accepts (m : gmap string json) :
  is_Some (PatchFile_kwargs m)
  ↔ dom m ⊆ field_names ∧ required_fields ⊆ dom m.
Proof.
  unfold PatchFile_kwargs, required_fields. case_bool_decide as Hd.
  - split.
    + intros [r Hr]. split; [done|].
      destruct (m !! "full_path") as [fp|] eqn:H1; [|done].
      destruct (m !! "file_name") as [fn|] eqn:H2; [|done].
      destruct (m !! "name") as [n|] eqn:H3; [|done].
      intros k Hk. apply elem_of_dom.
      repeat (apply elem_of_union in Hk as [Hk|Hk]);
        apply elem_of_singleton in Hk; subst k; eauto.
    + intros [_ Hr].
      assert (is_Some (m !! "full_path")) as [fp ->]
        by (apply elem_of_dom, Hr; set_solver).
      assert (is_Some (m !! "file_name")) as [fn ->]
        by (apply elem_of_dom, Hr; set_solver).
      assert (is_Some (m !! "name")) as [n ->]
        by (apply elem_of_dom, Hr; set_solver).
      simpl. eauto.
  - split; [by intros [? ?]|]. by intros [? _].
Qed.

Lemma PatchFile_of_accepts x : is_Some (PatchFile_of x) ↔ accepted x.
Proof.
  unfold accepted. destruct x as [| | | | |m]; simpl;
    try (split; [by intros [? ?]|by intros (? & ? & _)]).
  rewrite PatchFile_kwargs_accepts. split; [by exists m|].
  by intros (m' & [= <-] & ?).
Qed.

(** X15. Loading is all or nothing: a configuration whose text is a JSON list is
    loaded, one record per item, when every item is an object with the
    three required fields and no undeclared field; a single item that is not
    makes the load end the process with status 1, with no record
    returned. *)
Theorem get_patch_files_from_config_all_or_nothing
    {text : Type} (loads : text → option json)
    config_path (fs : gmap string text) txt items :
  fs !! config_path = Some txt → loads txt = Some (JList items) →
  (Forall accepted items →
   ∃ rs, get_patch_files_from_config loads config_path fs = Returned rs
         ∧ length rs = length items)
  ∧ (Exists (λ x, ¬ accepted x) items →
     get_patch_files_from_config loads config_path fs = Exited 1).
Proof.
  intros Hfs Htxt. unfold get_patch_files_from_config.
  rewrite Hfs, Htxt. cbn [mbind option_bind load_patch_files].
  destruct (mapM PatchFile_of items) as [rs|] eqn:Hm.
  - apply mapM_Some in Hm. split.
    + intros _. exists rs. split; [done|]. symmetry.
      by eapply Forall2_length.
    + intros HE. apply Exists_exists in HE as (x & Hx & Hn). destruct Hn.
      apply list_elem_of_lookup in Hx as [i Hi].
      destruct (Forall2_lookup_l _ _ _ _ _ Hm Hi) as (r & _ & Hr).
      apply PatchFile_of_accepts. eauto.
  - split; [|done]. intros HF.
    assert (is_Some (mapM PatchFile_of items)) as [rs Hrs]; [|congruence].
    apply mapM_is_Some. eapply Forall_impl; [done|].
    intros x. apply PatchFile_of_accepts.
Qed.

Lemma get_patch_files_from_config_all_or_nothing_witness :
  let good := JObj (config (sample "a.bin" true None)) in
  let bad := JObj (<["index" := JInt 3]> (config (sample "b.bin" true None))) in
  (∃ rs, get_patch_files_from_config Some "zoia_patches.conf"
           ({[ "zoia_patches.conf" := JList [good; good] ]}
              : gmap string json) = Returned rs
         ∧ length rs = length [good; good])
  ∧ get_patch_files_from_config Some "zoia_patches.conf"
      ({[ "zoia_patches.conf" := JList [good; bad] ]} : gmap string json)
      = Exited 1.
Proof.
  intros good bad. split.
  - apply (get_patch_files_from_config_all_or_nothing Some
             "zoia_patches.conf"
             ({[ "zoia_patches.conf" := JList [good; good] ]})
             (JList [good; good]) [good; good]);
      [apply lookup_singleton_eq|reflexivity|].
    assert (accepted good) as Hgood
      by (apply PatchFile_of_accepts; vm_compute; by eexists).
    by repeat apply Forall_cons_2.
  - apply (get_patch_files_from_config_all_or_nothing Some
             "zoia_patches.conf"
             ({[ "zoia_patches.conf" := JList [good; bad] ]})
             (JList [good; bad]) [good; bad]);
      [apply lookup_singleton_eq|reflexivity|].
    apply Exists_cons_tl, Exists_cons_hd. intros H.
    apply PatchFile_of_accepts in H as [r Hr]. by vm_compute in Hr.
Defined.

(** Defaults: an object that gives only [full_path], [file_name] and [name]
    loads as an active record without preference. *)
Lemma PatchFile_kwargs_defaults fp fn n :
  PatchFile_kwargs
      (<["full_path" := JStr fp]>
         (<["file_name" := JStr fn]> (<["name" := JStr n]> ∅)))
    ≫= typed
    = Some (new_PatchFile fp fn n).
Proof.
  unfold PatchFile_kwargs. rewrite bool_decide_eq_true_2.
  - reflexivity.
  - apply (bool_decide_unpack _). by vm_compute.
Qed.

(** * Further properties of the reporter *)

(** The keys of the index map are the non-zero slots some entry asks for,
    and each key maps to the names that ask for it. *)
Lemma index_map_names l i :
  i ≠ 0 → default [] (get_preferred_index_patches l !! i) = requested i l.
Proof.
  intros Hi. rewrite get_preferred_index_patches_lookup.
  rewrite decide_False by done. by destruct (requested i l).
Qed.

Lemma index_map_dom l i :
  i ∈ dom (get_preferred_index_patches l) ↔ i ≠ 0 ∧ requested i l ≠ [].
Proof.
  rewrite elem_of_dom, get_preferred_index_patches_lookup.
  destruct (decide (i = 0)) as [->|Hi].
  - split; [by intros [? ?]|by intros [? _]].
  - destruct (requested i l) as [|n ns].
    + split; [by intros [? ?]|by intros [_ ?]].
    + split; [by intros _|intros _; by eexists].
Qed.

Lemma sorted_keys_elem m i : i ∈ sorted_keys m ↔ i ∈ dom m.
Proof.
  unfold sorted_keys. by rewrite merge_sort_Permutation, elem_of_elements.
Qed.

(** X16. What the report lists: an entry is listed under slot [i] exactly when
    its [preferred_index] is [i] and [i] is not 0, active or not; its line
    carries the conflict mark exactly when two or more entries ask for
    [i]. *)
Theorem config_stats_lines l (c : bool) (i : Z) (n : string) :
  (c, i, n) ∈ preferred_index_strs (config_stats l)
  ↔ i ≠ 0 ∧ n ∈ requested i l
    ∧ c = bool_decide (1 < length (requested i l))%nat.
Proof.
  unfold config_stats. cbn [preferred_index_strs].
  rewrite list_elem_of_bind. split.
  - intros (k & Hin & Hk). apply sorted_keys_elem, index_map_dom in Hk as [Hk _].
    apply list_elem_of_fmap in Hin as (p & [= -> -> ->] & Hp).
    rewrite index_map_names in Hp |- * by done. done.
  - intros (Hi & Hn & ->). exists i. split.
    + apply list_elem_of_fmap. exists n. rewrite index_map_names by done.
      done.
    + apply sorted_keys_elem, index_map_dom. split; [done|].
      intros Hnil. rewrite Hnil in Hn. by apply elem_of_nil in Hn.
Qed.

Lemma sorted_replicate_app (k : Z) n rest :
  StronglySorted Z.le rest → Forall (Z.le k) rest →
  StronglySorted Z.le (replicate n k ++ rest).
Proof.
  intros Hs Hk. induction n as [|n IH]; [done|]. simpl.
  constructor; [done|]. apply Forall_app. split; [|done].
  apply Forall_replicate. lia.
Qed.

(** X17. The lines of the report come in ascending order of their slots. *)
Theorem config_stats_sorted l :
  StronglySorted Z.le
    ((λ ln, ln.1.2) <$> preferred_index_strs (config_stats l)).
Proof.
  unfold config_stats. cbn [preferred_index_strs].
  set (m := get_preferred_index_patches l).
  assert (StronglySorted Z.le (sorted_keys m)) as Hs
    by apply (StronglySorted_merge_sort Z.le).
  induction Hs as [|k ks _ IH Hk]; [constructor|].
  rewrite bind_cons, fmap_app, <-list_fmap_compose.
  rewrite (const_fmap _ _ k) by done.
  apply sorted_replicate_app; [exact IH|].
  apply Forall_fmap, Forall_bind. eapply Forall_impl; [exact Hk|].
  intros j Hj. by apply Forall_fmap, Forall_true.
Qed.

(** Appending a name under a key adds one to the number of names held. *)
Lemma index_map_total_step (m : gmap Z (list string)) p n :
  sum_list_with (λ kv, length kv.2)
      (map_to_list (<[p := default [] (m !! p) ++ [n]]> m))
    = S (sum_list_with (λ kv, length kv.2) (map_to_list m)).
Proof.
  destruct (m !! p) as [v|] eqn:Hp.
  - rewrite <-(insert_delete_eq m p (v ++ [n])).
    rewrite map_to_list_insert by apply lookup_delete_eq.
    rewrite <-(map_to_list_delete m p v Hp). simpl.
    rewrite length_app. simpl. lia.
  - by rewrite map_to_list_insert.
Qed.

Lemma index_step_total l (m : gmap Z (list string)) :
  sum_list_with (λ kv, length kv.2) (map_to_list (foldl index_step m l))
    = (sum_list_with (λ kv, length kv.2) (map_to_list m)
       + length (filter (λ pf, truthy (preferred_index pf) = true) l))%nat.
Proof.
  revert m. induction l as [|x l IH]; intros m; [simpl; lia|].
  simpl. rewrite IH. unfold index_step.
  destruct (preferred_index x) as [p|] eqn:Hp.
  - destruct (truthy (Some p)) eqn:Ht.
    + rewrite index_map_total_step, filter_cons_True by (by rewrite Hp).
      simpl. lia.
    + rewrite filter_cons_False by (by rewrite Hp, Ht). done.
  - rewrite filter_cons_False by (by rewrite Hp). done.
Qed.

Lemma keys_total (m : gmap Z (list string)) :
  sum_list ((length ∘ λ i, default [] (m !! i)) <$> (map_to_list m).*1)
    = sum_list_with (λ kv, length kv.2) (map_to_list m).
Proof.
  assert (Forall (λ kv, m !! kv.1 = Some kv.2) (map_to_list m)) as H.
  { apply Forall_forall. intros [k v] Hkv. by apply elem_of_map_to_list. }
  induction H as [|[k v] kvs Hkv _ IH]; [done|].
  rewrite !fmap_cons. cbn [sum_list_with compose id fst snd] in *.
  by rewrite Hkv, IH.
Qed.

Lemma sorted_keys_perm (m : gmap Z (list string)) :
  sorted_keys m ≡ₚ (map_to_list m).*1.
Proof.
  unfold sorted_keys. rewrite merge_sort_Permutation.
  apply NoDup_Permutation.
  - apply NoDup_elements.
  - apply NoDup_fst_map_to_list.
  - intros k. rewrite elem_of_elements, elem_of_dom, list_elem_of_fmap.
    split.
    + intros [v Hv]. exists (k, v). split; [done|].
      by apply elem_of_map_to_list.
    + intros ([k' v] & -> & Hkv). apply elem_of_map_to_list in Hkv. eauto.
Qed.

Lemma length_bind_sum {A B} (f : A → list B) (l : list A) :
  length (l ≫= f) = sum_list ((length ∘ f) <$> l).
Proof.
  induction l as [|x l IH]; [done|].
  rewrite bind_cons, length_app, IH. done.
Qed.

(** X18. The figure printed for "patches with preferred index" counts the
    entries whose [preferred_index] is set and not 0, active or not, and is
    the number of lines listed below it. *)
Theorem config_stats_count l :
  preferred_index_patch_count (config_stats l)
    = length (filter (λ pf, truthy (preferred_index pf) = true) l)
  ∧ preferred_index_patch_count (config_stats l)
    = length (preferred_index_strs (config_stats l)).
Proof.
  unfold config_stats. cbn [preferred_index_patch_count preferred_index_strs].
  set (m := get_preferred_index_patches l).
  assert (sum_list ((length ∘ λ i, default [] (m !! i))
                      <$> (map_to_list m).*1)
          = length (filter (λ pf, truthy (preferred_index pf) = true) l))
    as Hcount.
  { rewrite keys_total. unfold m, get_preferred_index_patches.
    rewrite index_step_total, map_to_list_empty. done. }
  split; [exact Hcount|].
  rewrite length_bind_sum.
  rewrite (sum_list_with_Permutation_proper id _ _
             (fmap_Permutation _ _ _ (sorted_keys_perm m))).
  rewrite <-!list_fmap_compose. f_equal. apply list_fmap_ext.
  intros i k _. simpl. by rewrite length_fmap.
Qed.

(** * Clearing the destination *)

(** The loop removes the visible names of a listing without repeats, when
    they are files, and nothing else. *)
Lemma delete_loop_removes listing (d : gmap string node) :
  NoDup listing →
  (∀ f, f ∈ listing → startswith f "." = false → d !! f = Some File) →
  ∃ d', delete_loop listing d = Some d'
    ∧ ∀ g, d' !! g =
        if decide (g ∈ listing ∧ startswith g "." = false) then None
        else d !! g.
Proof.
  revert d. induction listing as [|f listing IH]; intros d Hnd Hfiles.
  { exists d. split; [done|]. intros g. rewrite decide_False; [done|].
    intros [Hg _]. by apply elem_of_nil in Hg. }
  apply NoDup_cons in Hnd as [Hf Hnd]. cbn [delete_loop].
  destruct (startswith f ".") eqn:Hdot.
  - destruct (IH d Hnd) as (d' & -> & Hd').
    { intros g Hg. apply Hfiles. by apply list_elem_of_further. }
    exists d'. split; [done|]. intros g. rewrite Hd'.
    destruct (decide (g = f)) as [->|Hgf].
    + rewrite !decide_False; [done|by intros [_ ?]; congruence|].
      by intros [? _].
    + apply decide_ext. rewrite elem_of_cons.
      split; [by intros [? ?]; auto|]. intros [[?|?] ?]; [done|auto].
  - rewrite (Hfiles f) by (done || apply list_elem_of_here).
    destruct (IH (delete f d) Hnd) as (d' & -> & Hd').
    { intros g Hg Hv. rewrite lookup_delete_ne by (by intros ->).
      apply Hfiles; [by apply list_elem_of_further|done]. }
    exists d'. split; [done|]. intros g. rewrite Hd'.
    destruct (decide (g = f)) as [->|Hgf].
    + rewrite decide_False by (by intros [? _]).
      rewrite decide_True by (split; [apply list_elem_of_here|done]).
      apply lookup_delete_eq.
    + rewrite lookup_delete_ne by done.
      apply decide_ext. rewrite elem_of_cons.
      split; [by intros [? ?]; auto|]. intros [[?|?] ?]; [done|auto].
Qed.

(** The loop fails when a visible name of the listing is not a file. *)
Lemma delete_loop_fails listing (d : gmap string node) f :
  NoDup listing → f ∈ listing → startswith f "." = false →
  d !! f ≠ Some File → delete_loop listing d = None.
Proof.
  revert d. induction listing as [|g listing IH]; intros d Hnd Hf Hv Hd.
  { by apply elem_of_nil in Hf. }
  apply NoDup_cons in Hnd as [Hg Hnd]. cbn [delete_loop].
  destruct (decide (f = g)) as [<-|Hfg].
  { rewrite Hv. by destruct (d !! f) as [[|]|]. }
  apply elem_of_cons in Hf as [?|Hf]; [done|].
  destruct (startswith g "."); [by apply IH|].
  destruct (d !! g) as [[|]|]; try done.
  apply IH; [done..|]. by rewrite lookup_delete_ne.
Qed.

(** X19. [delete_files_in_dir] removes every file whose name does not start
    with a dot and keeps every entry whose name does, provided no directory
    has a visible name; a directory with a visible name makes it fail. *)
Theorem delete_files_in_dir_clears (d : gmap string node) :
  ((∀ f, d !! f = Some Directory → startswith f "." = true) →
   delete_files_in_dir d
     = Some (filter (λ kv, startswith kv.1 "." = true) d))
  ∧ (∀ f, d !! f = Some Directory → startswith f "." = false →
     delete_files_in_dir d = None).
Proof.
  unfold delete_files_in_dir.
  assert (∀ g, g ∈ (map_to_list d).*1 ↔ is_Some (d !! g)) as Hkeys.
  { intros g. rewrite list_elem_of_fmap. split.
    - intros ([g' v] & -> & Hkv). apply elem_of_map_to_list in Hkv. eauto.
    - intros [v Hv]. exists (g, v). split; [done|].
      by apply elem_of_map_to_list. }
  split.
  - intros Hdirs.
    destruct (delete_loop_removes (map_to_list d).*1 d) as (d' & -> & Hd').
    { apply NoDup_fst_map_to_list. }
    { intros f [v Hv]%Hkeys Hvis. destruct v; [done|].
      apply Hdirs in Hv. congruence. }
    f_equal. apply map_eq. intros g. apply option_eq. intros v.
    rewrite map_lookup_filter_Some, Hd'. cbn [fst].
    case_decide as Hc.
    + split; [done|]. intros [_ ?]. destruct Hc. congruence.
    + split; [|by intros [? _]]. intros Hg. split; [done|].
      destruct (startswith g ".") eqn:Hdot; [done|]. destruct Hc.
      split; [|done]. apply Hkeys. eauto.
  - intros f Hf Hvis. eapply delete_loop_fails; [|by apply Hkeys|done|].
    + apply NoDup_fst_map_to_list.
    + by rewrite Hf.
Qed.

Lemma delete_files_in_dir_clears_witness :
  let d : gmap string node :=
    <["000_zoia_a.bin" := File]> (<[".Trashes" := Directory]> ∅) in
  delete_files_in_dir d = Some (filter (λ kv, startswith kv.1 "." = true) d)
  ∧ delete_files_in_dir (<["old" := Directory]> d) = None.
Proof.
  intros d. split.
  - apply (proj1 (delete_files_in_dir_clears d)).
    intros f Hf. unfold d in Hf.
    apply lookup_insert_Some in Hf as [[_ [=]]|[_ Hf]].
    apply lookup_insert_Some in Hf as [[<- _]|[_ Hf]]; [done|].
    by rewrite lookup_empty in Hf.
  - apply (proj2 (delete_files_in_dir_clears (<["old" := Directory]> d))
             "old"); [apply lookup_insert_eq|done].
Defined.

(** * Instances of the characterisations above *)

Lemma copy_files_quiet_raises_witness :
  let σ := ["./patches/a.bin"] in
  copy_files_on copyfile_paths
      [sample "a.bin" false (Some 99); sample "b.bin" true (Some 64)]
      "/Volumes/ZOIA/to_zoia" false σ
    = (σ, Raised IndexError)
  ∧ ∃ r, copy_files [sample "a.bin" true None; sample "b.bin" true (Some (-1))]
           false = Returned r
      ∧ copy_files_on copyfile_paths
            [sample "a.bin" true None; sample "b.bin" true (Some (-1))]
            "/Volumes/ZOIA/to_zoia" false σ
          = carry_out copyfile_paths "/Volumes/ZOIA/to_zoia" r σ.
Proof.
  intros σ. split.
  - apply (proj1 (copy_files_quiet_raises copyfile_paths
             [sample "a.bin" false (Some 99); sample "b.bin" true (Some 64)]
             "/Volumes/ZOIA/to_zoia" σ)).
    apply Exists_cons_hd. unfold py_slot_ok. cbn [preferred_index sample].
    intros [_ ?]. lia.
  - apply (proj2 (copy_files_quiet_raises copyfile_paths
             [sample "a.bin" true None; sample "b.bin" true (Some (-1))]
             "/Volumes/ZOIA/to_zoia" σ)).
    repeat constructor; simpl; lia.
Defined.

Lemma copy_files_verbose_returns_witness :
  let σ := ["./patches/a.bin"] in
  (∃ r, copy_files [sample "a.bin" true None; sample "b.bin" true (Some (-1))]
          true = Returned r
     ∧ copy_files_on copyfile_paths
           [sample "a.bin" true None; sample "b.bin" true (Some (-1))]
           "/Volumes/ZOIA/to_zoia" true σ
         = carry_out copyfile_paths "/Volumes/ZOIA/to_zoia" r σ)
  ∧ copy_files_on copyfile_paths
        ([sample "a.bin" true None] ++ sample "b.bin" false None :: [])
        "/Volumes/ZOIA/to_zoia" true σ
      = (σ, Raised TypeError).
Proof.
  intros σ. split.
  - apply (proj1 (copy_files_verbose_returns copyfile_paths
             [sample "a.bin" true None; sample "b.bin" true (Some (-1))]
             "/Volumes/ZOIA/to_zoia" σ)).
    repeat constructor; simpl; lia.
  - apply (proj2 (copy_files_verbose_returns copyfile_paths
             ([sample "a.bin" true None] ++ sample "b.bin" false None :: [])
             "/Volumes/ZOIA/to_zoia" σ)
             [sample "a.bin" true None] (sample "b.bin" false None) []
             eq_refl).
    + simpl. lia.
    + repeat constructor.
    + by intros [? _].
Defined.

Lemma config_stats_lines_witness :
  let l := [sample "a.bin" true (Some 7); sample "b.bin" false (Some 7);
            sample "c.bin" true (Some 0)] in
  (true, 7, "b.bin") ∈ preferred_index_strs (config_stats l).
Proof.
  intros l. apply (config_stats_lines l true 7 "b.bin").
  split; [done|]. split; [|done].
  apply list_elem_of_further, list_elem_of_here.
Defined.

(** A source file that is missing: the copies before it are made, the call
    raises [FileNotFoundError]. *)
Example copy_files_on_missing_source :
  copy_files_on copyfile_paths
      [sample "a.bin" true None; sample "b.bin" true None]
      "/Volumes/ZOIA/to_zoia" false ["./patches/a.bin"]
    = (["/Volumes/ZOIA/to_zoia/000_zoia_a.bin"; "./patches/a.bin"],
       Raised FileNotFoundError).
Proof. by vm_compute. Qed.
